(** * A copy-on-write trie and its versioned store (src/trie/src.hpp)

    The C++ program keeps trie nodes behind [std::shared_ptr<const TrieNode>]:
    a node is shared by every version of the trie that still refers to it, and
    [Trie::operator==] compares root pointers.  The embedding therefore keeps
    the memory explicit.

    - A heap is the list of all nodes allocated so far, a pointer is an index
      into it, [nullptr] is [None].  Allocation appends, so two live nodes
      never have the same address.  A node that is no longer referred to
      stays in the list (the reference counts of the program only decide when
      memory is returned, which no operation can observe).
    - Undefined behaviour of the program (dereferencing a null [TrieNode*],
      [std::vector::back] on an empty vector, indexing outside a string)
      makes the modelled operation return [None].
    - [size_t] is 64 bits wide and [int] 32 bits; their wrap-around is
      written out where the program computes with them.
    - The store is modelled one operation at a time; its locks order the
      operations of different threads and are not part of the model.

    The file first embeds the program ([TrieNode], [Trie], [TrieStore]),
    then fixes the vocabulary of the specification, then proves the
    properties of [Get], [Put], [Remove] and of the store. *)

From Stdlib Require Import ZArith Lia Ascii String.
From stdpp Require Import base option list gmap strings.

(** ** Values and their run-time type

    [TrieNodeWithValue<T>] is a class template; [Trie::Get<T>] recognises it
    with a [dynamic_cast].  A stored value is modelled as an element of one
    universe [val] that knows its own type. *)

Class Typed (ty val : Type) := {
  type_of : val → ty;
  ty_eq_dec :: EqDecision ty
}.

(** ** Nodes and the heap *)

Definition loc := nat.

Record TrieNode {val : Type} := mkTrieNode {
  children_ : gmap ascii loc;      (* std::map<char, std::shared_ptr<const TrieNode>> *)
  is_value_node_ : bool;
  value_ : option val              (* [Some x]: the object is a TrieNodeWithValue holding x *)
}.
Arguments TrieNode : clear implicits.
Arguments mkTrieNode {val} _ _ _.

Record Trie := mkTrie { root_ : option loc }.

Section Nodes.
Context {val : Type}.

Local Abbreviation node := (TrieNode val).
Local Abbreviation heap := (list (TrieNode val)).

(** [TrieNode()] and [TrieNode(children)]. *)
Definition TrieNode_new : node := mkTrieNode ∅ false None.
Definition TrieNode_of (children : gmap ascii loc) : node :=
  mkTrieNode children false None.

(** [TrieNodeWithValue(children, value)]: the constructor sets the flag. *)
Definition TrieNodeWithValue (children : gmap ascii loc) (value : val) : node :=
  mkTrieNode children true (Some value).

(** The virtual [Clone]: dispatch on the dynamic class of the node.  Both
    overrides go through a constructor, so the flag of the copy is the one
    the constructor sets, not the flag of the original. *)
Definition Clone (n : node) : node :=
  match value_ n with
  | None => TrieNode_of (children_ n)
  | Some x => TrieNodeWithValue (children_ n) x
  end.

(** [*p] for a non-null pointer. *)
Definition deref (h : heap) (l : loc) : node := default TrieNode_new (h !! l).

(** [std::make_shared] / [std::make_unique]: a fresh address. *)
Definition alloc (n : node) (h : heap) : loc * heap := (length h, h ++ [n]).

Definition with_children (f : gmap ascii loc → gmap ascii loc) (n : node) : node :=
  mkTrieNode (f (children_ n)) (is_value_node_ n) (value_ n).

(** [p->children_[c] = l] *)
Definition set_child (p : loc) (c : ascii) (l : loc) (h : heap) : heap :=
  <[p := with_children (insert c l) (deref h p)]> h.

(** [p->children_.erase(c)] *)
Definition erase_child (p : loc) (c : ascii) (h : heap) : heap :=
  <[p := with_children (delete c) (deref h p)]> h.

(** [p->is_value_node_ = false] *)
Definition clear_flag (p : loc) (h : heap) : heap :=
  <[p := mkTrieNode (children_ (deref h p)) false (value_ (deref h p))]> h.

(** [children_.empty()] *)
Definition childless (n : node) : bool := bool_decide (children_ n = ∅).

(** ** Trie::Get *)

(** The loop of [Get]: follow one child link per character. *)
Fixpoint Get_walk (h : heap) (cur : loc) (key : list ascii) : option loc :=
  match key with
  | [] => Some cur
  | c :: rest =>
      match children_ (deref h cur) !! c with
      | None => None
      | Some child => Get_walk h child rest
      end
  end.

Context {ty : Type} `{!Typed ty val}.

(** [dynamic_cast<const TrieNodeWithValue<T>*>(cur.get())] followed by
    [value_.get()]. *)
Definition dynamic_cast (T : ty) (n : node) : option val :=
  match value_ n with
  | Some x => if decide (type_of x = T) then Some x else None
  | None => None
  end.

Definition Trie_Get (T : ty) (t : Trie) (key : list ascii) (h : heap) : option val :=
  match root_ t with
  | None => None
  | Some r =>
      match Get_walk h r key with
      | None => None
      | Some cur => dynamic_cast T (deref h cur)
      end
  end.

(** ** Trie::Put *)

(** The loop of [Put]: clone the child on the key path, or make an empty
    node where there is none, link it into the current (already private)
    node and descend.  [copy] is set in the last iteration
    ([i == len - 1]). *)
Fixpoint Put_walk (key : list ascii) (cur : loc) (copy : option loc) (h : heap)
  : loc * option loc * heap :=
  match key with
  | [] => (cur, copy, h)
  | c :: rest =>
      let '(child, h) :=
        match children_ (deref h cur) !! c with
        | None => alloc TrieNode_new h
        | Some old => alloc (Clone (deref h old)) h
        end in
      let h := set_child cur c child h in
      let copy := match rest with [] => Some cur | _ => copy end in
      Put_walk rest child copy h
  end.

(** [copy] is still [nullptr] when the loop never ran, and [key[len-1]] is
    then outside the string: the last assignment is undefined. *)
Definition Trie_Put (t : Trie) (key : list ascii) (value : val) (h : heap)
  : option (Trie * heap) :=
  let '(new_root, h) :=
    match root_ t with
    | Some r => alloc (Clone (deref h r)) h
    | None => alloc TrieNode_new h
    end in
  let '(cur, copy, h) := Put_walk key new_root None h in
  let '(val_node, h) :=
    alloc (TrieNodeWithValue (children_ (deref h cur)) value) h in
  match copy, key !! (length key - 1) with
  | Some p, Some c => Some (mkTrie (Some new_root), set_child p c val_node h)
  | _, _ => None
  end.

(** ** Trie::Remove *)

(** The first loop of [Remove]; [None] stands for the early
    [return *this] at a missing child. *)
Fixpoint Remove_walk (key : list ascii) (cur : loc) (path : list loc) (h : heap)
  : option (loc * list loc * heap) :=
  match key with
  | [] => Some (cur, path, h)
  | c :: rest =>
      match children_ (deref h cur) !! c with
      | None => None
      | Some child =>
          let path := path ++ [cur] in
          let '(clone_node, h) := alloc (Clone (deref h child)) h in
          let h := set_child cur c clone_node h in
          Remove_walk rest clone_node path h
      end
  end.

(** [int i = path.size() - 1]: the conversion of a [size_t] to a 32-bit
    [int] (modular, as in C++20 and in every mainstream compiler). *)
Definition to_int (z : Z) : Z := ((z + 2 ^ 31) mod 2 ^ 32 - 2 ^ 31)%Z.

(** The clean-up loop [for (int i = ...; i >= 0; --i)], with [n = i + 1]
    iterations still allowed. *)
Fixpoint Remove_cleanup (key : list ascii) (path : list loc) (n : nat) (h : heap)
  : option heap :=
  match n with
  | 0 => Some h
  | S i =>
      match path !! i with
      | None => None
      | Some pi =>
          if childless (deref h pi) && negb (is_value_node_ (deref h pi)) then
            match i with
            | 0 => Remove_cleanup key path i h
            | S i' =>
                match path !! i', key !! i' with
                | Some pp, Some c => Remove_cleanup key path i (erase_child pp c h)
                | _, _ => None
                end
            end
          else Some h
      end
  end.

(** Where [Remove] returns [*this] the clones made so far die with
    [new_root]; the heap is handed back as it was. *)
Definition Trie_Remove (t : Trie) (key : list ascii) (h0 : heap)
  : option (Trie * heap) :=
  match root_ t with
  | None => Some (t, h0)
  | Some r =>
      let '(new_root, h) := alloc (Clone (deref h0 r)) h0 in
      match Remove_walk key new_root [] h with
      | None => Some (t, h0)
      | Some (cur, path, h) =>
          if negb (is_value_node_ (deref h cur)) then Some (t, h0)
          else if negb (childless (deref h cur)) then
            let '(normal_node, h) := alloc (TrieNode_of (children_ (deref h cur))) h in
            match last path, key !! (length key - 1) with
            | Some p, Some c =>
                Some (mkTrie (Some new_root), set_child p c normal_node h)
            | _, _ => None
            end
          else
            let h := clear_flag cur h in
            match last path, key !! (length key - 1) with
            | Some p, Some c =>
                let h := erase_child p c h in
                let n := Z.to_nat (to_int (Z.of_nat (length path) - 1) + 1) in
                match Remove_cleanup key path n h with
                | Some h => Some (mkTrie (Some new_root), h)
                | None => None
                end
            | _, _ => None
            end
      end
  end.

(** [Trie::operator==]: identity of the roots. *)
Definition Trie_eqb (a b : Trie) : bool := bool_decide (root_ a = root_ b).

End Nodes.

(** ** TrieStore

    One operation at a time: [write_lock_] and [snapshots_lock_] have no
    effect on what a single operation computes, and are left out. *)

Record ValueGuard (val : Type) := mkValueGuard {
  guard_root_ : Trie;
  guard_value_ : val
}.
Arguments mkValueGuard {val} _ _.
Arguments guard_root_ {val} _.
Arguments guard_value_ {val} _.

Record TrieStore := mkTrieStore { snapshots_ : list Trie }.

(** [std::vector<Trie> snapshots_{1}]: one default-constructed trie. *)
Definition TrieStore_new : TrieStore := mkTrieStore [mkTrie None].

(** [size_t] arithmetic. *)
Definition SIZE_MAX : Z := (2 ^ 64 - 1)%Z.
Definition size_t (z : Z) : Z := (z mod 2 ^ 64)%Z.

(** [snapshots_.size()] *)
Definition snapshots_size (s : TrieStore) : Z := Z.of_nat (length (snapshots_ s)).

(** [get_version]: [snapshots_.size() - 1]. *)
Definition get_version (s : TrieStore) : Z := size_t (snapshots_size s - 1).

Section Store.
Context {val ty : Type} `{!Typed ty val}.

Local Abbreviation heap := (list (TrieNode val)).

Definition TrieStore_Get (T : ty) (key : list ascii) (version : Z)
    (s : TrieStore) (h : heap) : option (ValueGuard val) :=
  let version :=
    if decide (version = SIZE_MAX) then size_t (snapshots_size s - 1) else version in
  if decide (snapshots_size s ≤ version)%Z then None
  else
    match snapshots_ s !! Z.to_nat version with
    | None => None
    | Some trie =>
        match Trie_Get T trie key h with
        | None => None
        | Some x => Some (mkValueGuard trie x)
        end
    end.

(** The call [Get<T>(key)] with the default argument [size_t version = -1]. *)
Definition TrieStore_Get_latest (T : ty) (key : list ascii)
    (s : TrieStore) (h : heap) : option (ValueGuard val) :=
  TrieStore_Get T key (size_t (-1)) s h.

Definition TrieStore_Put (key : list ascii) (value : val) (s : TrieStore) (h : heap)
  : option (Z * TrieStore * heap) :=
  match last (snapshots_ s) with
  | None => None
  | Some current_version =>
      match Trie_Put current_version key value h with
      | None => None
      | Some (new_trie, h) =>
          let s := mkTrieStore (snapshots_ s ++ [new_trie]) in
          Some (size_t (snapshots_size s - 1), s, h)
      end
  end.

Definition TrieStore_Remove (key : list ascii) (s : TrieStore) (h : heap)
  : option (Z * TrieStore * heap) :=
  match last (snapshots_ s) with
  | None => None
  | Some current_version =>
      match Trie_Remove current_version key h with
      | None => None
      | Some (new_trie, h) =>
          if Trie_eqb new_trie current_version
          then Some (size_t (snapshots_size s - 1), s, h)
          else
            let s := mkTrieStore (snapshots_ s ++ [new_trie]) in
            Some (size_t (snapshots_size s - 1), s, h)
      end
  end.

(** A caller of the store: one write at a time. *)
Inductive store_op := OpPut (key : list ascii) (value : val) | OpRemove (key : list ascii).

Definition store_apply (op : store_op) (s : TrieStore) (h : heap)
  : option (Z * TrieStore * heap) :=
  match op with
  | OpPut key value => TrieStore_Put key value s h
  | OpRemove key => TrieStore_Remove key s h
  end.

(** The states a program can bring a freshly constructed store into. *)
Inductive reachable : TrieStore → heap → Prop :=
| reachable_new : reachable TrieStore_new []
| reachable_step op s h v s' h' :
    reachable s h → store_apply op s h = Some (v, s', h') → reachable s' h'.

(** Any number of later writes. *)
Inductive later_state : TrieStore → heap → TrieStore → heap → Prop :=
| later_refl s h : later_state s h s h
| later_step op s h s1 h1 v s2 h2 :
    later_state s h s1 h1 → store_apply op s1 h1 = Some (v, s2, h2) →
    later_state s h s2 h2.

End Store.

(** ** The vocabulary of the specification

    What a trie means is read off the heap by following child links from a
    node; the predicates below are what the statements about [Get], [Put]
    and [Remove] are written in. *)

Section Vocabulary.
Context {val : Type}.

Local Abbreviation node := (TrieNode val).
Local Abbreviation heap := (list (TrieNode val)).

(** No node below address [b] points at or above [b]; with [b] the size of
    the heap: no pointer dangles. *)
Definition points_below (b : nat) (n : node) : Prop :=
  ∀ c l, children_ n !! c = Some l → l < b.
Definition closed_below (b : nat) (h : heap) : Prop :=
  ∀ l, l < b → points_below b (deref h l).
Definition closed (h : heap) : Prop := closed_below (length h) h.

(** The nodes below address [b] are the same objects in [h'] as in [h]. *)
Definition keeps (b : nat) (h h' : heap) : Prop :=
  ∀ l, l < b → h' !! l = h !! l.

(** The node reached from [n] along [key], if every link on the way is
    there. *)
Fixpoint node_at (h : heap) (n : node) (key : list ascii) : option node :=
  match key with
  | [] => Some n
  | c :: rest =>
      match children_ n !! c with
      | None => None
      | Some l => node_at h (deref h l) rest
      end
  end.

(** The value stored under [key] below [n], whatever its type. *)
Definition value_at (h : heap) (n : node) (key : list ascii) : option val :=
  node_at h n key ≫= value_.

(** The same for a trie handle; the empty trie stores nothing. *)
Definition Trie_node_at (h : heap) (t : Trie) (key : list ascii) : option node :=
  match root_ t with
  | None => None
  | Some r => node_at h (deref h r) key
  end.
Definition Trie_value_at (h : heap) (t : Trie) (key : list ascii) : option val :=
  Trie_node_at h t key ≫= value_.

(** A link of the key path is missing: after some proper prefix [p] of the
    key a node is reached that has no child for the next character.  In
    the empty trie there is no root to start from, and every path is
    missing from its first step. *)
Definition link_missing (h : heap) (n : node) (key : list ascii) : Prop :=
  ∃ p c s m, key = p ++ c :: s ∧ node_at h n p = Some m ∧ children_ m !! c = None.
Definition Trie_link_missing (h : heap) (t : Trie) (key : list ascii) : Prop :=
  match root_ t with
  | None => True
  | Some r => link_missing h (deref h r) key
  end.

(** A node that carries something: a value or at least one child. *)
Definition live (n : node) : Prop := is_Some (value_ n) ∨ children_ n ≠ ∅.

(** Every node strictly below [n] is live. *)
Definition pruned_under (h : heap) (n : node) : Prop :=
  ∀ k m, k ≠ [] → node_at h n k = Some m → live m.

(** The pruning invariant of a trie, without and with the root. *)
Definition Trie_pruned (h : heap) (t : Trie) : Prop :=
  ∀ k m, k ≠ [] → Trie_node_at h t k = Some m → live m.
Definition Trie_pruned_all (h : heap) (t : Trie) : Prop :=
  ∀ k m, Trie_node_at h t k = Some m → live m.

(** The tries the program can hold: the root is an allocated node, and it
    is a plain [TrieNode] (no operation ever installs a
    [TrieNodeWithValue] as root). *)
Definition Trie_wf (h : heap) (t : Trie) : Prop :=
  match root_ t with
  | None => True
  | Some r => r < length h ∧ value_ (deref h r) = None
  end.

Definition Store_wf (s : TrieStore) (h : heap) : Prop :=
  closed h ∧ snapshots_ s ≠ [] ∧ ∀ t, t ∈ snapshots_ s → Trie_wf h t.

(** The flag of a node agrees with its class; true of every node a
    constructor has just built. *)
Definition flag_ok (n : node) : Prop :=
  is_value_node_ n = bool_decide (is_Some (value_ n)).

(** *** The result of [Put], one level at a time

    [put_shape h0 h' b value key old l]: in the new heap [h'] the node at
    [l] is what [Put] makes of a private copy [old] of a node of the old
    heap [h0] when [key] remains to be consumed. *)
Fixpoint put_shape (h0 h' : heap) (b : nat) (value : val)
    (key : list ascii) (old : node) (l : loc) : Prop :=
  match key with
  | [] => deref h' l = TrieNodeWithValue (children_ old) value
  | c :: rest =>
      ∃ l1, b ≤ l1 ∧
        value_ (deref h' l) = value_ old ∧
        children_ (deref h' l) = <[c := l1]> (children_ old) ∧
        put_shape h0 h' b value rest
          (match children_ old !! c with
           | Some o => Clone (deref h0 o)
           | None => TrieNode_new
           end) l1
  end.

(** The private copy of the root that [Put] and [Remove] start from. *)
Definition root_copy (h : heap) (t : Trie) : node :=
  match root_ t with
  | Some r => Clone (deref h r)
  | None => TrieNode_new
  end.

(** The last two steps of [Put], after the loop. *)
Definition Put_finish (lastc : ascii) (value : val) (st : loc * option loc * heap)
  : option heap :=
  let '(cur, copy, h) := st in
  let '(val_node, h) :=
    alloc (TrieNodeWithValue (children_ (deref h cur)) value) h in
  match copy with
  | Some p => Some (set_child p lastc val_node h)
  | None => None
  end.

(** *** The result of [Remove]

    [dead h0 n rest]: below [n] there is nothing but the path [rest], which
    ends in a childless node: once the value at its end is gone, the whole
    branch holds nothing. *)
Fixpoint dead (h0 : heap) (n : node) (rest : list ascii) : Prop :=
  match rest with
  | [] => children_ n = ∅
  | c :: r =>
      value_ n = None ∧
      ∃ o, children_ n = {[c := o]} ∧ dead h0 (Clone (deref h0 o)) r
  end.

(** [remove_shape strict top h0 h' b key old l]: the node at [l] of the new
    heap is what [Remove] makes of the private copy [old].  Either the
    branch towards the key was cut off here (it was dead), or the link
    leads to the next private copy; at the end of the key the node was
    replaced by a plain node with the same children.  With [strict], a cut
    below the root leaves a live node. *)
Fixpoint remove_shape (strict top : bool) (h0 h' : heap) (b : nat)
    (key : list ascii) (old : node) (l : loc) : Prop :=
  match key with
  | [] =>
      value_ (deref h' l) = None ∧
      children_ (deref h' l) = children_ old ∧ children_ old ≠ ∅
  | c :: rest =>
      value_ (deref h' l) = value_ old ∧
      ∃ o, children_ old !! c = Some o ∧
        ((children_ (deref h' l) = delete c (children_ old) ∧
          dead h0 (Clone (deref h0 o)) rest ∧
          (strict = true → top = false → live (deref h' l)))
         ∨
         (∃ l1, b ≤ l1 ∧
            children_ (deref h' l) = <[c := l1]> (children_ old) ∧
            remove_shape strict false h0 h' b rest (Clone (deref h0 o)) l1))
  end.

(** The private copy at depth [j] of the key path. *)
Fixpoint old_at (h0 : heap) (old : node) (key : list ascii) (j : nat)
  {struct j} : option node :=
  match j with
  | 0 => Some old
  | S j' =>
      match key with
      | [] => None
      | c :: rest =>
          match children_ old !! c with
          | Some o => old_at h0 (Clone (deref h0 o)) rest j'
          | None => None
          end
      end
  end.

(** After the first loop of [Remove] the private copy at depth [j] sits at
    address [l + j] and is linked to the next one; the clean-up loop cuts
    the link at one depth, where everything below is dead. *)
Definition linked_at (h0 G : heap) (old : node) (key : list ascii)
    (l : loc) (j : nat) : Prop :=
  ∀ oj c, old_at h0 old key j = Some oj → key !! j = Some c →
    deref G (l + j) = with_children (insert c (S (l + j))) oj.

Definition cut_at (h0 G : heap) (old : node) (key : list ascii)
    (l : loc) (j : nat) : Prop :=
  ∀ oj c, old_at h0 old key j = Some oj → key !! j = Some c →
    value_ (deref G (l + j)) = value_ oj ∧
    is_value_node_ (deref G (l + j)) = is_value_node_ oj ∧
    children_ (deref G (l + j)) = delete c (children_ oj).

Definition dead_below (h0 : heap) (old : node) (key : list ascii) (j : nat) : Prop :=
  ∀ oj c o, old_at h0 old key j = Some oj → key !! j = Some c →
    children_ oj !! c = Some o →
    dead h0 (Clone (deref h0 o)) (drop (S j) key).

(** The state of the clean-up loop when it is about to look at depth [i]:
    the copies above are as the first loop left them (in [h1]), the link
    at depth [i] is cut and everything below it is dead. *)
Definition cleanup_inv (h0 h1 : heap) (old : node) (key : list ascii) (b : nat)
    (G : heap) (i : nat) : Prop :=
  (∀ j, j < i → deref G (b + j) = deref h1 (b + j)) ∧
  cut_at h0 G old key b i ∧ dead_below h0 old key i ∧
  length G = length h1 ∧ keeps b h1 G ∧ closed G.

End Vocabulary.

(** ** A concrete universe of values, for running the model *)

Inductive sample_ty := T_int | T_string.
Inductive sample_val := V_int (z : Z) | V_string (s : string).

#[global] Instance sample_ty_eq_dec : EqDecision sample_ty.
Proof. solve_decision. Defined.

#[global] Instance sample_typed : Typed sample_ty sample_val := {|
  type_of v := match v with V_int _ => T_int | V_string _ => T_string end
|}.

Definition run_ops (ops : list (@store_op sample_val))
  : option (TrieStore * list (TrieNode sample_val)) :=
  foldl (λ st op,
           match st with
           | Some (s, h) =>
               match store_apply op s h with
               | Some (_, s', h') => Some (s', h')
               | None => None
               end
           | None => None
           end)
        (Some (TrieStore_new, [])) ops.

(** A checkable form of [closed], for concrete heaps. *)
Definition closedb {val : Type} (h : list (TrieNode val)) : bool :=
  forallb (λ n, forallb (λ cl : ascii * loc, bool_decide (cl.2 < length h))
                  (map_to_list (children_ n))) h.

(** ** Concrete stores

    The scenario of the specification: [Put("a", 100)], [Put("ab", 200)],
    [Remove("a")]; and a store emptied again by [Remove("a")]. *)

Definition key_of (s : string) : list ascii := list_ascii_of_string s.

Definition world : Type := TrieStore * list (TrieNode sample_val).

Definition run (ops : list (@store_op sample_val)) : world :=
  default (TrieStore_new, []) (run_ops ops).

Definition latest (w : world) : Trie := default (mkTrie None) (last (snapshots_ w.1)).

Definition world_new : world := run [].
Definition world_a : world := run [OpPut (key_of "a") (V_int 100)].
Definition world_ab : world :=
  run [OpPut (key_of "a") (V_int 100); OpPut (key_of "ab") (V_int 200)].
Definition world_ab_minus_a : world :=
  run [OpPut (key_of "a") (V_int 100); OpPut (key_of "ab") (V_int 200);
       OpRemove (key_of "a")].
Definition world_a_minus_a : world :=
  run [OpPut (key_of "a") (V_int 100); OpRemove (key_of "a")].

(** * Theory *)

Section Heap.
Context {val : Type}.

Local Abbreviation node := (TrieNode val).
Local Abbreviation heap := (list (TrieNode val)).

Implicit Types (h : heap) (n : node) (l : loc) (key : list ascii).

(** ** Reading and writing the heap *)

Lemma deref_lookup h l n : h !! l = Some n → deref h l = n.
Proof. unfold deref. by intros ->. Qed.

Lemma deref_app_l h e l : l < length h → deref (h ++ e) l = deref h l.
Proof. intros Hl. unfold deref. by rewrite lookup_app_l. Qed.

Lemma deref_app_new h n : deref (h ++ [n]) (length h) = n.
Proof. apply deref_lookup, list_lookup_middle. done. Qed.

Lemma deref_insert_eq h l n : l < length h → deref (<[l := n]> h) l = n.
Proof. intros Hl. by apply deref_lookup, list_lookup_insert_eq. Qed.

Lemma deref_insert_ne h l l' n : l ≠ l' → deref (<[l := n]> h) l' = deref h l'.
Proof. intros Hl. unfold deref. by rewrite list_lookup_insert_ne. Qed.

Lemma deref_keeps b h h' l : keeps b h h' → l < b → deref h' l = deref h l.
Proof. intros Hk Hl. unfold deref. by rewrite Hk. Qed.

Lemma keeps_refl b h : keeps b h h.
Proof. by intros l _. Qed.

Lemma keeps_trans b h1 h2 h3 : keeps b h1 h2 → keeps b h2 h3 → keeps b h1 h3.
Proof. intros H12 H23 l Hl. by rewrite H23, H12. Qed.

Lemma keeps_le b b' h h' : b ≤ b' → keeps b' h h' → keeps b h h'.
Proof. intros Hb Hk l Hl. apply Hk. lia. Qed.

Lemma keeps_app b h e : b ≤ length h → keeps b h (h ++ e).
Proof. intros Hb l Hl. apply lookup_app_l. lia. Qed.

Lemma keeps_insert b h l n : b ≤ l → keeps b h (<[l := n]> h).
Proof. intros Hb l' Hl. apply list_lookup_insert_ne. lia. Qed.

(** A heap is a prefix of another exactly when the latter keeps all its
    nodes. *)
Lemma keeps_prefix h h' :
  length h ≤ length h' → keeps (length h) h h' → h `prefix_of` h'.
Proof.
  intros Hlen Hk. exists (drop (length h) h').
  rewrite <- (take_drop (length h) h') at 1. f_equal.
  apply list_eq. intros i. destruct (decide (i < length h)) as [Hi|Hi].
  - rewrite lookup_take_lt by done. by apply Hk.
  - rewrite lookup_take_ge by lia. symmetry. apply lookup_ge_None. lia.
Qed.

Lemma points_below_le b b' n : b ≤ b' → points_below b n → points_below b' n.
Proof. intros Hb Hn c l Hc. specialize (Hn c l Hc). lia. Qed.

Lemma points_below_new b : points_below b (@TrieNode_new val).
Proof. intros c l. cbn. by rewrite lookup_empty. Qed.

Lemma points_below_insert b n c l :
  l < b → points_below b n → points_below b (with_children (insert c l) n).
Proof.
  intros Hl Hn c' l'. cbn. rewrite lookup_insert. case_decide; [|by apply Hn].
  intros [= <-]. done.
Qed.

Lemma points_below_delete b n c :
  points_below b n → points_below b (with_children (delete c) n).
Proof.
  intros Hn c' l'. cbn. rewrite lookup_delete. case_decide; [done|by apply Hn].
Qed.

(** ** Clones *)

Lemma Clone_children n : children_ (Clone n) = children_ n.
Proof. unfold Clone. by destruct (value_ n). Qed.

Lemma Clone_value n : value_ (Clone n) = value_ n.
Proof. unfold Clone. by destruct (value_ n) eqn:E. Qed.

Lemma Clone_flag_ok n : flag_ok (Clone n).
Proof.
  unfold flag_ok, Clone. by destruct (value_ n).
Qed.

Lemma points_below_Clone b n : points_below b n → points_below b (Clone n).
Proof. unfold points_below. by rewrite Clone_children. Qed.

Lemma flag_ok_new : flag_ok (@TrieNode_new val).
Proof. done. Qed.

(** ** Following links *)

Lemma Get_walk_node_at h l key :
  deref h <$> Get_walk h l key = node_at h (deref h l) key.
Proof.
  revert l. induction key as [|c rest IH]; intros l; cbn; [done|].
  destruct (children_ (deref h l) !! c); [apply IH|done].
Qed.

(** Below a closed part of the heap a walk never leaves that part, so it
    sees the same nodes in every heap that keeps that part. *)
Lemma node_at_frame b h h' n key :
  closed_below b h → keeps b h h' → points_below b n →
  node_at h' n key = node_at h n key.
Proof.
  intros Hc Hk. revert n. induction key as [|c rest IH]; intros n Hn; cbn; [done|].
  destruct (children_ n !! c) as [l|] eqn:E; [|done].
  specialize (Hn _ _ E). rewrite (deref_keeps b h h') by done.
  apply IH. by apply Hc.
Qed.

Lemma node_at_points_below b h n key m :
  closed_below b h → points_below b n →
  node_at h n key = Some m → points_below b m.
Proof.
  intros Hc. revert n. induction key as [|c rest IH]; intros n Hn; cbn.
  - by intros [= <-].
  - destruct (children_ n !! c) as [l|] eqn:E; [|done].
    apply IH, Hc. by apply (Hn c).
Qed.

Lemma value_at_frame b h h' n key :
  closed_below b h → keeps b h h' → points_below b n →
  value_at h' n key = value_at h n key.
Proof. intros. unfold value_at. by erewrite node_at_frame. Qed.

Lemma node_at_cons_eq h n n' c rest :
  children_ n = children_ n' → node_at h n (c :: rest) = node_at h n' (c :: rest).
Proof. cbn. by intros ->. Qed.

Lemma node_at_Clone_cons h n c rest :
  node_at h (Clone n) (c :: rest) = node_at h n (c :: rest).
Proof. apply node_at_cons_eq, Clone_children. Qed.

Lemma value_at_Clone h n key : value_at h (Clone n) key = value_at h n key.
Proof.
  unfold value_at. destruct key as [|c rest].
  - cbn. apply Clone_value.
  - by rewrite node_at_Clone_cons.
Qed.

Lemma value_at_new h key : value_at h (@TrieNode_new val) key = None.
Proof. unfold value_at. destruct key; cbn; [done|]. by rewrite lookup_empty. Qed.

Lemma node_at_app h n p s :
  node_at h n (p ++ s) = node_at h n p ≫= λ m, node_at h m s.
Proof.
  revert n. induction p as [|c p IH]; intros n; cbn; [done|].
  destruct (children_ n !! c); [apply IH|done].
Qed.

(** Either the path resolves to a node, or a link is missing on the way. *)
Lemma node_at_None h n key : node_at h n key = None ↔ link_missing h n key.
Proof.
  split.
  - revert n. induction key as [|c rest IH]; intros n; cbn; [done|].
    destruct (children_ n !! c) as [l|] eqn:E.
    + intros (p & c' & s & m & -> & Hp & Hm)%IH.
      exists (c :: p), c', s, m. cbn. by rewrite E.
    + intros _. by exists [], c, rest, n.
  - intros (p & c & s & m & -> & Hp & Hm).
    rewrite node_at_app, Hp. cbn. by rewrite Hm.
Qed.

End Heap.

Section PutTheory.
Context {val : Type}.

Local Abbreviation node := (TrieNode val).
Local Abbreviation heap := (list (TrieNode val)).

Implicit Types (h : heap) (n old m : node) (l : loc) (key k : list ascii).

(** ** What a heap of the shape left by [Put] stores *)

Section Shape.
Variables (h0 h' : heap) (b : nat) (value : val).
Hypothesis Hclosed : closed_below b h0.
Hypothesis Hkeeps : keeps b h0 h'.

Lemma old_child_points_below old c :
  points_below b old →
  points_below b (match children_ old !! c with
                  | Some o => Clone (deref h0 o)
                  | None => TrieNode_new
                  end).
Proof using Hclosed.
  intros Hold. destruct (children_ old !! c) as [o|] eqn:E.
  - apply points_below_Clone, Hclosed. by apply (Hold c).
  - apply points_below_new.
Qed.

Lemma value_at_old_child old c k :
  value_at h0 (match children_ old !! c with
               | Some o => Clone (deref h0 o)
               | None => TrieNode_new
               end) k
  = value_at h0 old (c :: k).
Proof.
  unfold value_at at 2. cbn. destruct (children_ old !! c) as [o|].
  - apply value_at_Clone.
  - apply value_at_new.
Qed.

(** A child that is not on the key path is an old node, shared with the
    old trie. *)
Lemma node_at_shared n old c k :
  points_below b old →
  children_ n !! c = children_ old !! c →
  node_at h' n (c :: k) = node_at h0 old (c :: k).
Proof using Hclosed Hkeeps.
  intros Hold Hc. cbn. rewrite Hc.
  destruct (children_ old !! c) as [o|] eqn:E; [|done].
  specialize (Hold _ _ E). rewrite (deref_keeps b h0 h') by done.
  apply (node_at_frame b); auto.
Qed.

Lemma put_shape_value_at key old l k :
  points_below b old →
  put_shape h0 h' b value key old l →
  value_at h' (deref h' l) k
  = if decide (k = key) then Some value else value_at h0 old k.
Proof using Hclosed Hkeeps.
  revert old l k. induction key as [|c rest IH]; intros old l k Hold; cbn.
  - intros Hl. destruct k as [|c' k'].
    + unfold value_at. cbn. by rewrite Hl.
    + rewrite decide_False by done. unfold value_at.
      rewrite (node_at_shared _ old); [done|done|]. by rewrite Hl.
  - intros (l1 & Hl1 & Hv & Hch & Hrest). destruct k as [|c' k'].
    + rewrite decide_False by done. unfold value_at. by cbn.
    + destruct (decide (c' = c)) as [->|Hne].
      * unfold value_at at 1. cbn. rewrite Hch, lookup_insert_eq.
        fold (value_at h' (deref h' l1) k').
        rewrite (IH _ _ k' (old_child_points_below old c Hold) Hrest).
        rewrite value_at_old_child.
        destruct (decide (k' = rest)) as [->|Hk].
        -- by rewrite decide_True.
        -- rewrite decide_False; [done|]. by intros [= ?].
      * rewrite decide_False by (by intros [= ? ?]). unfold value_at.
        rewrite (node_at_shared _ old); [done|done|].
        by rewrite Hch, lookup_insert_ne.
Qed.

Lemma pruned_under_old_child old c :
  pruned_under h0 old →
  pruned_under h0 (match children_ old !! c with
                   | Some o => Clone (deref h0 o)
                   | None => TrieNode_new
                   end).
Proof.
  intros Hp k m Hk. destruct (children_ old !! c) as [o|] eqn:E.
  - destruct k as [|c' k']; [done|]. rewrite node_at_Clone_cons.
    intros Hm. apply (Hp (c :: c' :: k')); [done|]. cbn. by rewrite E.
  - destruct k as [|c' k']; [done|]. cbn. by rewrite lookup_empty.
Qed.

Lemma put_shape_live key old l :
  put_shape h0 h' b value key old l → live (deref h' l).
Proof.
  destruct key as [|c rest]; cbn.
  - intros ->. left. by eexists.
  - intros (l1 & _ & _ & Hch & _). right. rewrite Hch.
    apply insert_non_empty.
Qed.

Lemma put_shape_pruned key old l :
  points_below b old →
  put_shape h0 h' b value key old l →
  pruned_under h0 old → pruned_under h' (deref h' l).
Proof using Hclosed Hkeeps.
  revert old l. induction key as [|c rest IH]; intros old l Hold; cbn.
  - intros Hl Hp k m Hk. destruct k as [|c' k']; [done|].
    rewrite (node_at_shared _ old); [by apply Hp|done|]. by rewrite Hl.
  - intros (l1 & Hl1 & Hv & Hch & Hrest) Hp k m Hk.
    destruct k as [|c' k']; [done|].
    destruct (decide (c' = c)) as [->|Hne].
    + cbn. rewrite Hch, lookup_insert_eq. destruct k' as [|c'' k''].
      * cbn. intros [= <-]. by eapply put_shape_live.
      * apply (IH _ _ (old_child_points_below old c Hold) Hrest); [|done].
        by apply pruned_under_old_child.
    + rewrite (node_at_shared _ old); [by apply Hp|done|].
      by rewrite Hch, lookup_insert_ne.
Qed.

(** The part of the trie that is not on the key path is shared: a key
    that leaves the path leads to the very node of the old heap. *)
Lemma put_shape_value_at_other key old l k :
  points_below b old →
  put_shape h0 h' b value key old l →
  k ≠ key → value_at h' (deref h' l) k = value_at h0 old k.
Proof using Hclosed Hkeeps.
  intros Hold Hs Hk. rewrite (put_shape_value_at key old l k Hold Hs).
  by rewrite decide_False.
Qed.

End Shape.

(** ** The loop of [Put] builds that shape *)

Lemma closed_alloc h n :
  closed h → points_below (length h) n → closed (h ++ [n]).
Proof.
  intros Hc Hn l Hl. rewrite length_app in *. cbn in *.
  destruct (decide (l = length h)) as [->|Hne].
  - rewrite deref_app_new. eapply points_below_le; [|done]. lia.
  - rewrite deref_app_l by lia. eapply points_below_le; [|apply Hc]; lia.
Qed.

Lemma closed_insert h l n :
  closed h → points_below (length h) n → closed (<[l := n]> h).
Proof.
  intros Hc Hn l' Hl. rewrite length_insert in *.
  destruct (decide (l = l')) as [->|Hne].
  - by rewrite deref_insert_eq.
  - rewrite deref_insert_ne by done. by apply Hc.
Qed.

Lemma closed_set_child h p c l :
  closed h → p < length h → l < length h → closed (set_child p c l h).
Proof.
  intros Hc Hp Hl. apply closed_insert; [done|].
  apply points_below_insert; [done|]. by apply Hc.
Qed.

Lemma closed_erase_child h p c :
  closed h → p < length h → closed (erase_child p c h).
Proof.
  intros Hc Hp. apply closed_insert; [done|].
  apply points_below_delete. by apply Hc.
Qed.

Lemma closed_below_keeps b h h' :
  closed_below b h → keeps b h h' → closed_below b h'.
Proof. intros Hc Hk l Hl. rewrite (deref_keeps b h h') by done. by apply Hc. Qed.

Section Loop.
Variables (h0 : heap) (b : nat) (value : val).
Hypothesis Hclosed : closed_below b h0.

Lemma Put_walk_shape rest c cur copy h lastc :
  last (c :: rest) = Some lastc →
  keeps b h0 h → closed h → b ≤ cur → length h = S cur →
  points_below b (deref h cur) →
  ∃ h', Put_finish lastc value (Put_walk (c :: rest) cur copy h) = Some h' ∧
        length h < length h' ∧ keeps cur h h' ∧ closed h' ∧
        put_shape h0 h' b value (c :: rest) (deref h cur) cur.
Proof using Hclosed.
  revert c cur copy h. induction rest as [|c2 rest IH];
    intros c cur copy h Hlast Hk Hc Hb Hlen Hold.
  - (* the last character: the value node replaces the fresh child *)
    cbn in Hlast. injection Hlast as <-.
    set (nchild := match children_ (deref h cur) !! c with
                   | Some o => Clone (deref h0 o)
                   | None => TrieNode_new
                   end).
    assert (Hn : (let '(child, h1) :=
                    match children_ (deref h cur) !! c with
                    | None => alloc TrieNode_new h
                    | Some old => alloc (Clone (deref h old)) h
                    end in (child, h1)) = (S cur, h ++ [nchild])).
    { subst nchild. destruct (children_ (deref h cur) !! c) as [o|] eqn:E;
        unfold alloc; rewrite Hlen; [|done].
      by rewrite (deref_keeps _ _ _ _ Hk) by (by apply (Hold c)). }
    assert (Hpn : points_below b nchild).
    { subst nchild. destruct (children_ (deref h cur) !! c) as [o|] eqn:E.
      - apply points_below_Clone, Hclosed. by apply (Hold c).
      - apply points_below_new. }
    cbn [Put_walk]. 
    destruct (match children_ (deref h cur) !! c with
              | None => alloc TrieNode_new h
              | Some old => alloc (Clone (deref h old)) h
              end) as [child h1] eqn:Ea.
    injection Hn as -> ->. cbn [Put_finish alloc].
    set (h2 := set_child cur c (S cur) (h ++ [nchild])).
    assert (Hlen2 : length h2 = S (S cur)).
    { subst h2. unfold set_child. rewrite length_insert, length_app. cbn. lia. }
    assert (Hd2c : deref h2 (S cur) = nchild).
    { subst h2. unfold set_child. rewrite deref_insert_ne by lia.
      rewrite <- Hlen. apply deref_app_new. }
    assert (Hd2 : deref h2 cur = with_children (insert c (S cur)) (deref h cur)).
    { subst h2. unfold set_child. rewrite deref_insert_eq.
      - by rewrite deref_app_l by lia.
      - rewrite length_app. lia. }
    rewrite Hlen2, Hd2c.
    set (vn := TrieNodeWithValue (children_ nchild) value).
    eexists. split; [done|].
    assert (Hd' : deref (set_child cur c (S (S cur)) (h2 ++ [vn])) cur
                  = with_children (insert c (S (S cur))) (deref h2 cur)).
    { unfold set_child. rewrite deref_insert_eq.
      - by rewrite deref_app_l by lia.
      - rewrite length_app. lia. }
    split; [|split; [|split]].
    + unfold set_child. rewrite length_insert, length_app. lia.
    + unfold set_child. apply (keeps_trans _ _ h2).
      * subst h2. unfold set_child.
        apply (keeps_trans _ _ (h ++ [nchild])).
        -- apply keeps_app. lia.
        -- by apply keeps_insert.
      * apply (keeps_trans _ _ (h2 ++ [vn])).
        -- apply keeps_app. lia.
        -- by apply keeps_insert.
    + apply closed_set_child; rewrite ?length_app; cbn; try lia.
      apply closed_alloc.
      * subst h2. apply closed_set_child; rewrite ?length_app; cbn; try lia.
        apply closed_alloc; [done|].
        eapply points_below_le; [|done]. lia.
      * subst vn. intros c' l'. cbn. intros Hc'%Hpn. lia.
    + cbn [put_shape]. exists (S (S cur)). split; [lia|].
      rewrite Hd', Hd2. cbn. split; [done|]. split.
      * apply insert_insert_eq.
      * unfold set_child. rewrite deref_insert_ne by lia.
        rewrite <- Hlen2. rewrite deref_app_new. done.
  - (* an inner character: link the fresh child and go on from there *)
    set (nchild := match children_ (deref h cur) !! c with
                   | Some o => Clone (deref h0 o)
                   | None => TrieNode_new
                   end).
    assert (Hn : (match children_ (deref h cur) !! c with
                  | None => alloc TrieNode_new h
                  | Some old => alloc (Clone (deref h old)) h
                  end) = (S cur, h ++ [nchild])).
    { subst nchild. destruct (children_ (deref h cur) !! c) as [o|] eqn:E;
        unfold alloc; rewrite Hlen; [|done].
      by rewrite (deref_keeps _ _ _ _ Hk) by (by apply (Hold c)). }
    assert (Hpn : points_below b nchild).
    { subst nchild. destruct (children_ (deref h cur) !! c) as [o|] eqn:E.
      - apply points_below_Clone, Hclosed. by apply (Hold c).
      - apply points_below_new. }
    change (Put_walk (c :: c2 :: rest) cur copy h)
      with (let '(child, h1) :=
              match children_ (deref h cur) !! c with
              | None => alloc TrieNode_new h
              | Some old => alloc (Clone (deref h old)) h
              end in
            Put_walk (c2 :: rest) child copy (set_child cur c child h1)).
    rewrite Hn.
    set (h2 := set_child cur c (S cur) (h ++ [nchild])).
    assert (Hlen2 : length h2 = S (S cur)).
    { subst h2. unfold set_child. rewrite length_insert, length_app. cbn. lia. }
    assert (Hd2c : deref h2 (S cur) = nchild).
    { subst h2. unfold set_child. rewrite deref_insert_ne by lia.
      rewrite <- Hlen. apply deref_app_new. }
    assert (Hd2 : deref h2 cur = with_children (insert c (S cur)) (deref h cur)).
    { subst h2. unfold set_child. rewrite deref_insert_eq.
      - by rewrite deref_app_l by lia.
      - rewrite length_app. lia. }
    assert (Hk2 : keeps cur h h2).
    { subst h2. unfold set_child. apply (keeps_trans _ _ (h ++ [nchild])).
      - apply keeps_app. lia.
      - by apply keeps_insert. }
    destruct (IH c2 (S cur) copy h2) as (h' & Hrun & Hlen' & Hk' & Hc' & Hs').
    + by rewrite last_cons_cons in Hlast.
    + apply (keeps_trans _ _ h); [done|]. by apply (keeps_le b cur).
    + subst h2. apply closed_set_child; rewrite ?length_app; cbn; try lia.
      apply closed_alloc; [done|]. eapply points_below_le; [|done]. lia.
    + lia.
    + done.
    + by rewrite Hd2c.
    + exists h'. split; [done|]. split; [lia|]. split; [|split; [done|]].
      * apply (keeps_trans _ _ h2); [done|]. apply (keeps_le cur (S cur)); [lia|done].
      * cbn [put_shape]. exists (S cur). split; [lia|].
        rewrite (deref_keeps (S cur) h2 h') by (done || lia).
        rewrite Hd2. cbn. split; [done|]. split; [done|].
        rewrite Hd2c in Hs'. done.
Qed.

End Loop.

(** ** Trie::Put *)

Lemma Trie_Put_unfold t key value h lastc :
  last key = Some lastc →
  Trie_Put t key value h
  = match Put_finish lastc value
            (Put_walk key (length h) None (h ++ [root_copy h t])) with
    | Some h' => Some (mkTrie (Some (length h)), h')
    | None => None
    end.
Proof.
  intros Hlast. unfold Trie_Put, root_copy, Put_finish.
  replace (length key - 1) with (pred (length key)) by lia.
  rewrite <- last_lookup, Hlast.
  destruct (root_ t); unfold alloc;
    destruct (Put_walk key _ None _) as [[cur copy] h1]; by destruct copy.
Qed.

Lemma Trie_Put_shape t key value h :
  key ≠ [] → closed h →
  (∀ r, root_ t = Some r → r < length h) →
  ∃ h', Trie_Put t key value h = Some (mkTrie (Some (length h)), h') ∧
        length h < length h' ∧ keeps (length h) h h' ∧ closed h' ∧
        put_shape h h' (length h) value key (root_copy h t) (length h).
Proof.
  intros Hkey Hc Hr. destruct key as [|c rest]; [done|].
  destruct (last (c :: rest)) as [lastc|] eqn:Hlast;
    [|by apply last_None in Hlast].
  rewrite (Trie_Put_unfold _ _ _ _ lastc Hlast).
  assert (Hrc : points_below (length h) (root_copy h t)).
  { unfold root_copy. destruct (root_ t) as [r|] eqn:E.
    - apply points_below_Clone, Hc, Hr. done.
    - apply points_below_new. }
  destruct (Put_walk_shape h (length h) value Hc rest c (length h) None
              (h ++ [root_copy h t]) lastc)
    as (h' & Hrun & Hlen & Hk & Hc' & Hs); auto.
  - apply keeps_app. done.
  - by apply closed_alloc.
  - rewrite length_app. cbn. lia.
  - by rewrite deref_app_new.
  - exists h'. rewrite Hrun. split; [done|]. rewrite length_app in Hlen. cbn in Hlen.
    split; [lia|]. split; [|split; [done|]].
    + apply (keeps_trans _ _ (h ++ [root_copy h t])); [|done].
      by apply keeps_app.
    + by rewrite deref_app_new in Hs.
Qed.

(** The empty key: the loop never runs, [copy] stays null. *)
Lemma Trie_Put_nil t value h : Trie_Put t [] value h = None.
Proof. unfold Trie_Put. by destruct (root_ t). Qed.

End PutTheory.

Section RemoveShape.
Context {val : Type}.

Local Abbreviation node := (TrieNode val).
Local Abbreviation heap := (list (TrieNode val)).

Implicit Types (h : heap) (n old m : node) (l : loc) (key k rest : list ascii).

Variables (h0 h' : heap) (b : nat).
Hypothesis Hclosed : closed_below b h0.
Hypothesis Hkeeps : keeps b h0 h'.

(** ** What a dead branch stores: nothing but the value at its end *)

Lemma dead_value_at n rest k :
  dead h0 n rest → k ≠ rest → value_at h0 n k = None.
Proof.
  revert n k. induction rest as [|c r IH]; intros n k; cbn.
  - intros Hn Hk. destruct k as [|c' k']; [done|].
    unfold value_at. cbn. by rewrite Hn, lookup_empty.
  - intros (Hv & o & Ho & Hd) Hk. destruct k as [|c' k']; [done|].
    unfold value_at. cbn. rewrite Ho.
    destruct (decide (c' = c)) as [->|Hne].
    + rewrite lookup_singleton_eq. fold (value_at h0 (deref h0 o) k').
      rewrite <- value_at_Clone. apply IH; [done|]. by intros ->.
    + by rewrite lookup_singleton_ne.
Qed.

Lemma dead_end_childless n rest m :
  dead h0 n rest → node_at h0 n rest = Some m → children_ m = ∅.
Proof.
  revert n. induction rest as [|c r IH]; intros n; cbn.
  - by intros Hn [= <-].
  - intros (Hv & o & Ho & Hd). rewrite Ho, lookup_singleton_eq.
    destruct r as [|c' r'].
    + cbn. intros [= <-]. cbn in Hd. by rewrite Clone_children in Hd.
    + rewrite <- node_at_Clone_cons. by apply IH.
Qed.

(** ** What a heap of the shape left by [Remove] stores *)

Lemma remove_shape_value_at strict top key old l k :
  points_below b old →
  remove_shape strict top h0 h' b key old l →
  value_at h' (deref h' l) k
  = if decide (k = key) then None else value_at h0 old k.
Proof using Hclosed Hkeeps.
  revert top old l k. induction key as [|c rest IH]; intros top old l k Hold; cbn.
  - intros (Hv & Hch & _). destruct k as [|c' k'].
    + unfold value_at. by cbn.
    + rewrite decide_False by done. unfold value_at.
      rewrite (node_at_shared h0 h' b Hclosed Hkeeps _ old); [done|done|].
      by rewrite Hch.
  - intros (Hv & o & Ho & Hcase). destruct k as [|c' k'].
    + rewrite decide_False by done. unfold value_at. by cbn.
    + destruct (decide (c' = c)) as [->|Hne].
      * destruct Hcase as [(Hch & Hd & _)|(l1 & Hl1 & Hch & Hrest)].
        -- unfold value_at at 1. cbn. rewrite Hch, lookup_delete_eq. cbn.
           destruct (decide (k' = rest)) as [->|Hk].
           ++ by rewrite decide_True.
           ++ rewrite decide_False by (by intros [= ?]).
              unfold value_at. cbn. rewrite Ho.
              fold (value_at h0 (deref h0 o) k').
              rewrite <- value_at_Clone. symmetry. by apply (dead_value_at _ rest).
        -- unfold value_at at 1. cbn. rewrite Hch, lookup_insert_eq.
           fold (value_at h' (deref h' l1) k').
           rewrite (IH false (Clone (deref h0 o)) l1 k'); [|by apply points_below_Clone, Hclosed, (Hold c)|done].
           destruct (decide (k' = rest)) as [->|Hk].
           ++ by rewrite decide_True.
           ++ rewrite decide_False by (by intros [= ?]).
              rewrite value_at_Clone. unfold value_at. cbn. by rewrite Ho.
      * rewrite decide_False by (by intros [= ? ?]). unfold value_at.
        rewrite (node_at_shared h0 h' b Hclosed Hkeeps _ old); [done|done|].
        destruct Hcase as [(Hch & _)|(l1 & _ & Hch & _)]; rewrite Hch.
        -- by rewrite lookup_delete_ne.
        -- by rewrite lookup_insert_ne.
Qed.

Lemma pruned_under_Clone_child old c o :
  pruned_under h0 old → children_ old !! c = Some o →
  pruned_under h0 (Clone (deref h0 o)).
Proof.
  intros Hp Ho k m Hk. destruct k as [|c' k']; [done|].
  rewrite node_at_Clone_cons. intros Hm.
  apply (Hp (c :: c' :: k')); [done|]. cbn. by rewrite Ho.
Qed.

Lemma remove_shape_pruned top key old l :
  points_below b old →
  remove_shape true top h0 h' b key old l →
  pruned_under h0 old →
  (top = false → live (deref h' l)) ∧ pruned_under h' (deref h' l).
Proof using Hclosed Hkeeps.
  revert top old l. induction key as [|c rest IH]; intros top old l Hold; cbn.
  - intros (Hv & Hch & Hne) Hp. split.
    + intros _. right. by rewrite Hch.
    + intros k m Hk. destruct k as [|c' k']; [done|].
      rewrite (node_at_shared h0 h' b Hclosed Hkeeps _ old); [by apply Hp|done|].
      by rewrite Hch.
  - intros (Hv & o & Ho & Hcase) Hp. split.
    + destruct Hcase as [(_ & _ & Hl)|(l1 & _ & Hch & _)].
      * by apply Hl.
      * intros _. right. rewrite Hch. apply insert_non_empty.
    + intros k m Hk. destruct k as [|c' k']; [done|].
      destruct (decide (c' = c)) as [->|Hne].
      * destruct Hcase as [(Hch & _)|(l1 & Hl1 & Hch & Hrest)].
        -- cbn. by rewrite Hch, lookup_delete_eq.
        -- cbn. rewrite Hch, lookup_insert_eq.
           destruct (IH false (Clone (deref h0 o)) l1) as [Hlive Hpr];
             [by apply points_below_Clone, Hclosed, (Hold c)|done
             |by eapply pruned_under_Clone_child|].
           destruct k' as [|c'' k''].
           ++ cbn. intros [= <-]. by apply Hlive.
           ++ by apply Hpr.
      * rewrite (node_at_shared h0 h' b Hclosed Hkeeps _ old); [by apply Hp|done|].
        destruct Hcase as [(Hch & _)|(l1 & _ & Hch & _)]; rewrite Hch.
        -- by rewrite lookup_delete_ne.
        -- by rewrite lookup_insert_ne.
Qed.

(** When the node of the key has children it is still there, without its
    value and with the very same children. *)
Lemma remove_shape_demoted strict top key old l m :
  remove_shape strict top h0 h' b key old l →
  node_at h0 old key = Some m → children_ m ≠ ∅ →
  ∃ m', node_at h' (deref h' l) key = Some m' ∧
        value_ m' = None ∧ children_ m' = children_ m.
Proof.
  revert top old l. induction key as [|c rest IH]; intros top old l; cbn.
  - intros (Hv & Hch & _) [= <-] _. eauto.
  - intros (Hv & o & Ho & Hcase). rewrite Ho. intros Hm Hne.
    destruct Hcase as [(Hch & Hd & _)|(l1 & Hl1 & Hch & Hrest)].
    + exfalso. apply Hne. destruct rest as [|c' r'].
      * injection Hm as <-. cbn in Hd. by rewrite Clone_children in Hd.
      * rewrite <- node_at_Clone_cons in Hm. by eapply dead_end_childless.
    + rewrite Hch, lookup_insert_eq.
      destruct rest as [|c' r'].
      * injection Hm as <-. cbn in Hrest. destruct Hrest as (Hv1 & Hch1 & _).
        cbn. eexists. split; [done|]. by rewrite Hch1, Clone_children.
      * apply (IH false (Clone (deref h0 o)) l1 Hrest); [|done].
        by rewrite node_at_Clone_cons.
Qed.

End RemoveShape.

Section RemoveLoops.
Context {val : Type}.

Local Abbreviation node := (TrieNode val).
Local Abbreviation heap := (list (TrieNode val)).

Implicit Types (h G : heap) (n old m : node) (l : loc) (key k rest : list ascii).

(** ** The private copies along the key path *)

Lemma old_at_S h0 old key j :
  old_at h0 old key (S j)
  = old_at h0 old key j ≫= λ oj,
      key !! j ≫= λ c,
        children_ oj !! c ≫= λ o, Some (Clone (deref h0 o)).
Proof.
  revert old key. induction j as [|j IH]; intros old key.
  - destruct key as [|c rest]; cbn; [done|]. by destruct (children_ old !! c).
  - destruct key as [|c rest]; [done|].
    change (old_at h0 old (c :: rest) (S (S j)))
      with (match children_ old !! c with
            | Some o => old_at h0 (Clone (deref h0 o)) rest (S j)
            | None => None
            end).
    change (old_at h0 old (c :: rest) (S j))
      with (match children_ old !! c with
            | Some o => old_at h0 (Clone (deref h0 o)) rest j
            | None => None
            end).
    destruct (children_ old !! c) as [o|]; [|done]. apply IH.
Qed.

Lemma old_at_step h0 old key j oj' :
  old_at h0 old key (S j) = Some oj' →
  ∃ oj c o, old_at h0 old key j = Some oj ∧ key !! j = Some c ∧
            children_ oj !! c = Some o ∧ oj' = Clone (deref h0 o).
Proof.
  rewrite old_at_S. destruct (old_at h0 old key j) as [oj|]; [|done]. cbn.
  destruct (key !! j) as [c|]; [|done]. cbn.
  destruct (children_ oj !! c) as [o|] eqn:E; [|done]. cbn.
  intros [= <-]. eauto 10.
Qed.

Lemma old_at_is_Some_le h0 old key i j :
  i ≤ j → is_Some (old_at h0 old key j) → is_Some (old_at h0 old key i).
Proof.
  induction 1 as [|j Hle IH]; [done|].
  intros [oj' (oj & ? & ? & Hj & _)%old_at_step]. apply IH. eauto.
Qed.

Lemma old_at_flag_ok h0 old key j oj :
  flag_ok old → old_at h0 old key j = Some oj → flag_ok oj.
Proof.
  destruct j as [|j].
  - cbn. by intros ? [= <-].
  - intros _ (? & ? & o & _ & _ & _ & ->)%old_at_step. apply Clone_flag_ok.
Qed.

Lemma old_at_points_below h0 b old key j oj :
  closed_below b h0 → points_below b old →
  old_at h0 old key j = Some oj → points_below b oj.
Proof.
  intros Hc. revert oj. induction j as [|j IH]; intros oj Hold.
  - cbn. by intros [= <-].
  - intros (oj0 & c & o & Hj & _ & Ho & ->)%old_at_step.
    apply points_below_Clone, Hc. by apply (IH oj0 Hold Hj c).
Qed.

(** The copy at the end of the path has the content of the node the key
    leads to. *)
Lemma old_at_node_at h0 old n key :
  value_ old = value_ n → children_ old = children_ n →
  match node_at h0 n key with
  | None => old_at h0 old key (length key) = None
  | Some m => ∃ m', old_at h0 old key (length key) = Some m' ∧
                    value_ m' = value_ m ∧ children_ m' = children_ m
  end.
Proof.
  revert old n. induction key as [|c rest IH]; intros old n Hv Hch; cbn.
  - eauto.
  - rewrite Hch. destruct (children_ n !! c) as [o|]; [|done].
    apply IH; [apply Clone_value|apply Clone_children].
Qed.

(** ** The first loop of [Remove] *)

Section Walk.
Variables (h0 : heap) (b : nat).
Hypothesis Hclosed : closed_below b h0.

Lemma Remove_walk_spec key cur path h :
  keeps b h0 h → closed h → b ≤ cur → length h = S cur →
  points_below b (deref h cur) →
  match old_at h0 (deref h cur) key (length key) with
  | None => Remove_walk key cur path h = None
  | Some ot =>
      ∃ h', Remove_walk key cur path h
            = Some (cur + length key, path ++ seq cur (length key), h') ∧
            length h' = S (cur + length key) ∧ keeps cur h h' ∧ closed h' ∧
            (∀ j, j < length key → linked_at h0 h' (deref h cur) key cur j) ∧
            deref h' (cur + length key) = ot
  end.
Proof using Hclosed.
  revert cur path h. induction key as [|c rest IH];
    intros cur path h Hk Hc Hb Hlen Hold.
  - cbn. exists h. rewrite Nat.add_0_r, app_nil_r.
    split; [done|]. split; [done|]. split; [apply keeps_refl|].
    split; [done|]. split; [intros j Hj; lia|done].
  - cbn [length old_at Remove_walk].
    destruct (children_ (deref h cur) !! c) as [o|] eqn:Ho; [|done].
    assert (Hob : o < b) by (by apply (Hold c)).
    unfold alloc. rewrite Hlen.
    rewrite (deref_keeps _ _ _ _ Hk) by done.
    set (old' := Clone (deref h0 o)).
    set (h2 := set_child cur c (S cur) (h ++ [old'])).
    assert (Hlen2 : length h2 = S (S cur)).
    { subst h2. unfold set_child. rewrite length_insert, length_app. cbn. lia. }
    assert (Hd2c : deref h2 (S cur) = old').
    { subst h2. unfold set_child. rewrite deref_insert_ne by lia.
      rewrite <- Hlen. apply deref_app_new. }
    assert (Hd2 : deref h2 cur = with_children (insert c (S cur)) (deref h cur)).
    { subst h2. unfold set_child. rewrite deref_insert_eq.
      - by rewrite deref_app_l by lia.
      - rewrite length_app. lia. }
    assert (Hk2 : keeps cur h h2).
    { subst h2. unfold set_child. apply (keeps_trans _ _ (h ++ [old'])).
      - apply keeps_app. lia.
      - by apply keeps_insert. }
    specialize (IH (S cur) (path ++ [cur]) h2).
    rewrite Hd2c in IH.
    destruct (old_at h0 old' rest (length rest)) as [ot|] eqn:Eot.
    + destruct IH as (h' & Hrun & Hlen' & Hk' & Hc' & Hlink & Hend).
      * apply (keeps_trans _ _ h); [done|]. by apply (keeps_le b cur).
      * subst h2. apply closed_set_child; rewrite ?length_app; cbn; try lia.
        apply closed_alloc; [done|].
        apply points_below_Clone. eapply points_below_le; [|by apply Hclosed]. lia.
      * lia.
      * done.
      * apply points_below_Clone. by apply Hclosed.
      * exists h'. split.
        { etrans; [exact Hrun|].
          replace (S cur + length rest) with (cur + S (length rest)) by lia.
          by rewrite <- app_assoc. }
        split; [rewrite Hlen'; lia|]. split.
        { apply (keeps_trans _ _ h2); [done|].
          apply (keeps_le cur (S cur)); [lia|done]. }
        split; [done|]. split.
        { intros j Hj oj c' Hoj Hkj. destruct j as [|j].
          - cbn in Hoj, Hkj. injection Hoj as <-. injection Hkj as <-.
            rewrite Nat.add_0_r.
            rewrite (deref_keeps (S cur) h2 h') by (done || lia). done.
          - cbn in Hoj, Hkj. rewrite Ho in Hoj.
            replace (cur + S j) with (S cur + j) by lia.
            apply (Hlink j); [lia|done|done]. }
        rewrite <- Hend. f_equal. lia.
    + apply IH; auto.
      * apply (keeps_trans _ _ h); [done|]. by apply (keeps_le b cur).
      * subst h2. apply closed_set_child; rewrite ?length_app; cbn; try lia.
        apply closed_alloc; [done|].
        apply points_below_Clone. eapply points_below_le; [|by apply Hclosed]. lia.
      * apply points_below_Clone. by apply Hclosed.
Qed.

End Walk.

(** ** From addresses to the shape *)

Section Positions.
Variables (h0 G : heap) (b : nat) (strict : bool).

Lemma positions_shape key (m : nat) (pos : nat → loc) old (top : bool) l :
  pos 0 = l →
  (∀ j, j ≤ m → b ≤ pos j) →
  (∀ j oj c, j < m → old_at h0 old key j = Some oj → key !! j = Some c →
     value_ (deref G (pos j)) = value_ oj ∧
     children_ (deref G (pos j)) = <[c := pos (S j)]> (children_ oj)) →
  ((m = length key ∧
    ∃ ot, old_at h0 old key m = Some ot ∧
          value_ (deref G (pos m)) = None ∧
          children_ (deref G (pos m)) = children_ ot ∧ children_ ot ≠ ∅)
   ∨
   (∃ om c o, old_at h0 old key m = Some om ∧ key !! m = Some c ∧
              children_ om !! c = Some o ∧
              value_ (deref G (pos m)) = value_ om ∧
              children_ (deref G (pos m)) = delete c (children_ om) ∧
              dead h0 (Clone (deref h0 o)) (drop (S m) key) ∧
              (strict = true → top = false ∨ m ≠ 0 → live (deref G (pos m))))) →
  remove_shape strict top h0 G b key old l.
Proof.
  revert m pos old top l. induction key as [|c rest IH];
    intros m pos old top l <- Hpos Hlink Hend.
  - destruct Hend as [(-> & ot & Hot & Hv & Hch & Hne)|(om & c & o & _ & Hc & _)];
      [|done].
    cbn in Hot. injection Hot as <-. done.
  - destruct m as [|m].
    + destruct Hend as [(? & _)|(om & c' & o & Hom & Hc' & Ho & Hv & Hch & Hd & Hl)];
        [done|].
      cbn in Hom, Hc'. injection Hom as <-. injection Hc' as <-.
      cbn [remove_shape]. split; [done|]. exists o. split; [done|]. left.
      split; [done|]. split; [done|]. intros Hs Ht. apply Hl; auto.
    + assert (Hex : is_Some (old_at h0 old (c :: rest) (S m))).
      { destruct Hend as [(_ & ot & Hot & _)|(om & ? & ? & Hom & _)]; eauto. }
      destruct Hex as [om Hom]. pose proof Hom as Hom'.
      cbn in Hom'. destruct (children_ old !! c) as [o|] eqn:Ho; [|done].
      destruct (Hlink 0 old c) as [Hv Hch]; [lia|done|done|].
      cbn [remove_shape]. split; [done|]. exists o. split; [done|]. right.
      exists (pos 1). split; [apply Hpos; lia|]. split; [done|].
      apply (IH m (λ j, pos (S j)) (Clone (deref h0 o)) false).
      * done.
      * intros j Hj. apply Hpos. lia.
      * intros j oj c' Hj Hoj Hc'. apply (Hlink (S j)); [lia| |done].
        cbn. by rewrite Ho.
      * destruct Hend as [(Hm & ot & Hot & Hrest)
                         |(om' & c' & o' & Hom2 & Hc' & Ho' & Hv' & Hch' & Hd & Hl)].
        -- left. cbn in Hm. split; [lia|]. exists ot. split; [|done].
           cbn in Hot. by rewrite Ho in Hot.
        -- right. exists om', c', o'. cbn in Hom2. rewrite Ho in Hom2.
           split; [done|]. split; [done|]. split; [done|]. split; [done|].
           split; [done|]. split; [done|]. intros Hs _. apply Hl; auto.
Qed.

End Positions.

End RemoveLoops.

Section RemoveTheory.
Context {val : Type}.

Local Abbreviation node := (TrieNode val).
Local Abbreviation heap := (list (TrieNode val)).

Implicit Types (h G : heap) (old : node) (l : loc) (key k rest : list ascii) (n : nat).

(** ** The loop counter *)

Lemma to_int_small z : (- 2 ^ 31 ≤ z < 2 ^ 31)%Z → to_int z = z.
Proof. intros Hz. unfold to_int. rewrite Z.mod_small; lia. Qed.

Lemma cleanup_count_le (len : nat) :
  Z.to_nat (to_int (Z.of_nat (S len) - 1) + 1) ≤ S len.
Proof.
  unfold to_int.
  pose proof (Z.mod_le (Z.of_nat (S len) - 1 + 2 ^ 31) (2 ^ 32)) as H.
  lia.
Qed.

Lemma cleanup_count_eq (len : nat) :
  (Z.of_nat (S len) ≤ 2 ^ 31)%Z →
  Z.to_nat (to_int (Z.of_nat (S len) - 1) + 1) = S len.
Proof. intros Hlen. rewrite to_int_small; lia. Qed.

Lemma last_seq (b len : nat) : last (seq b (S len)) = Some (b + len).
Proof. rewrite seq_S. apply last_snoc. Qed.

Lemma singleton_of_delete_empty (mp : gmap ascii loc) c o :
  mp !! c = Some o → delete c mp = ∅ → mp = {[c := o]}.
Proof.
  intros Hc Hd. apply map_eq. intros c'.
  destruct (decide (c' = c)) as [->|Hne].
  - by rewrite lookup_singleton_eq.
  - rewrite lookup_singleton_ne by done.
    rewrite <- (lookup_delete_ne mp c c') by done. by rewrite Hd.
Qed.

Lemma Remove_cleanup_S key (path : list loc) i G :
  Remove_cleanup key path (S i) G
  = match path !! i with
    | None => None
    | Some pi =>
        if childless (deref G pi) && negb (is_value_node_ (deref G pi)) then
          match i with
          | 0 => Remove_cleanup key path i G
          | S i' =>
              match path !! i', key !! i' with
              | Some pp, Some c => Remove_cleanup key path i (erase_child pp c G)
              | _, _ => None
              end
          end
        else Some G
    end.
Proof. done. Qed.

(** ** After the first loop *)

Section AfterWalk.
Variables (h0 h1 : heap) (b len : nat) (key : list ascii) (old : node).
Local Abbreviation ot := (deref h1 (b + S len)).
Hypothesis Hlenk : length key = S len.
Hypothesis Hk1 : keeps b h0 h1.
Hypothesis Hc1 : closed h1.
Hypothesis Hlen1 : length h1 = S (b + S len).
Hypothesis Hlink : ∀ j, j < S len → linked_at h0 h1 old key b j.
Hypothesis Hot : old_at h0 old key (S len) = Some ot.
Hypothesis Hflag : flag_ok old.
Hypothesis Hpb : points_below b old.
Hypothesis Hclosed0 : closed_below b h0.

Lemma old_at_sub j : j ≤ S len → is_Some (old_at h0 old key j).
Proof. intros Hj. eapply old_at_is_Some_le; [exact Hj|]. eauto. Qed.

Lemma key_sub j : j < S len → is_Some (key !! j).
Proof. intros Hj. apply lookup_lt_is_Some. lia. Qed.

Lemma old_at_child j oj c :
  j < S len → old_at h0 old key j = Some oj → key !! j = Some c →
  ∃ o, children_ oj !! c = Some o ∧ old_at h0 old key (S j) = Some (Clone (deref h0 o)).
Proof.
  intros Hj Hoj Hc. destruct (old_at_sub (S j)) as [oj' Hoj']; [lia|].
  pose proof Hoj' as Hstep. apply old_at_step in Hstep.
  destruct Hstep as (oj2 & c2 & o & Hoj2 & Hc2 & Ho & ->).
  simplify_eq. eauto.
Qed.

(** *** The node of the key has children: it is replaced by a plain node *)

Lemma Remove_demote_shape strict cl :
  key !! len = Some cl → children_ ot ≠ ∅ →
  let h' := set_child (b + len) cl (S (b + S len))
              (h1 ++ [TrieNode_of (children_ ot)]) in
  remove_shape strict true h0 h' b key old b ∧
  keeps b h0 h' ∧ closed h' ∧ length h1 < length h'.
Proof.
  intros Hcl Hne h'.
  set (h3 := h1 ++ [TrieNode_of (children_ ot)]) in *.
  assert (Hlen3 : length h3 = S (S (b + S len))).
  { subst h3. rewrite length_app. cbn. lia. }
  assert (Hnew : deref h' (S (b + S len)) = TrieNode_of (children_ ot)).
  { subst h'. unfold set_child. rewrite deref_insert_ne by lia.
    subst h3. rewrite <- Hlen1. apply deref_app_new. }
  assert (Hlow : ∀ j, j < len → deref h' (b + j) = deref h1 (b + j)).
  { intros j Hj. subst h'. unfold set_child. rewrite deref_insert_ne by lia.
    subst h3. apply deref_app_l. lia. }
  assert (Hpar : deref h' (b + len)
                 = with_children (insert cl (S (b + S len))) (deref h1 (b + len))).
  { subst h'. unfold set_child. rewrite deref_insert_eq by lia.
    subst h3. by rewrite deref_app_l by lia. }
  split; [|split; [|split]].
  - apply (positions_shape h0 h' b strict key (S len)
             (λ j, if decide (j = S len) then S (b + S len) else b + j) old true).
    + cbn beta. rewrite decide_False by lia. lia.
    + intros j Hj. cbn. case_decide; lia.
    + intros j oj c Hj Hoj Hc. cbn beta.
      rewrite (decide_False (P := j = S len)) by lia.
      destruct (decide (j = len)) as [->|Hjl].
      * rewrite decide_True by done. rewrite Hpar.
        rewrite (Hlink len (Nat.lt_succ_diag_r len) oj c Hoj Hc). cbn.
        simplify_eq. split; [done|]. apply insert_insert_eq.
      * rewrite decide_False by lia. rewrite Hlow by lia.
        rewrite (Hlink j Hj oj c Hoj Hc). cbn. split; [done|].
        f_equal. lia.
    + left. split; [done|]. exists ot. split; [done|]. cbn beta.
      rewrite decide_True by done. rewrite Hnew. done.
  - subst h'. unfold set_child. apply (keeps_trans _ _ h1); [done|].
    apply (keeps_trans _ _ h3).
    + subst h3. apply keeps_app. lia.
    + apply keeps_insert. lia.
  - subst h'. apply closed_set_child; [|lia|lia].
    subst h3. apply closed_alloc; [done|].
    intros c l Hc. cbn in Hc.
    apply (Hc1 (b + S len)) in Hc; [done|lia].
  - subst h'. unfold set_child. rewrite length_insert. lia.
Qed.

(** *** The node of the key is a leaf: it is erased, and the clean-up
    loop climbs towards the root *)

Lemma lookup_path j : j < S len → seq b (length key) !! j = Some (b + j).
Proof. intros Hj. rewrite Hlenk. by apply lookup_seq_lt. Qed.

Lemma cleanup_full i G :
  i < S len → cleanup_inv h0 h1 old key b G i →
  ∃ G' m, Remove_cleanup key (seq b (length key)) (S i) G = Some G' ∧
          m ≤ i ∧ cleanup_inv h0 h1 old key b G' m ∧ (m = 0 ∨ live (deref G' (b + m))).
Proof.
  revert G. induction i as [|i IH]; intros G Hi (Hlow & Hcut & Hdead & HlenG & HkG & HcG).
  - rewrite Remove_cleanup_S, lookup_path by done.
    exists G, 0. split; [by destruct (_ && _)|]. split; [done|]. split; [done|by left].
  - rewrite Remove_cleanup_S, lookup_path by done.
    destruct (old_at_sub (S i)) as [oi Hoi]; [lia|].
    destruct (key_sub (S i)) as [ci Hci]; [done|].
    destruct (Hcut oi ci Hoi Hci) as (Hv & Hf & Hch).
    destruct (childless (deref G (b + S i)) && negb (is_value_node_ (deref G (b + S i))))
      eqn:Etest.
    + apply andb_true_iff in Etest as [Hcl Hnf].
      apply bool_decide_eq_true in Hcl. apply negb_true_iff in Hnf.
      rewrite lookup_path by lia.
      destruct (old_at_sub i) as [oi' Hoi']; [lia|].
      destruct (key_sub i) as [ci' Hci']; [lia|].
      rewrite Hci'.
      destruct (old_at_child i oi' ci') as (o & Ho & Hnext); [lia|done|done|].
      rewrite Hoi in Hnext. injection Hnext as ->.
      set (G2 := erase_child (b + i) ci' G).
      destruct (IH G2) as (G' & m & Hrun & Hm & Hinv & Hlive); [lia| |].
      * assert (HdG : deref G2 (b + i)
                      = with_children (delete ci') (deref h1 (b + i))).
        { subst G2. unfold erase_child. rewrite deref_insert_eq by lia.
          by rewrite Hlow by lia. }
        split; [|split; [|split; [|split; [|split]]]].
        -- intros j Hj. subst G2. unfold erase_child.
           rewrite deref_insert_ne by lia. apply Hlow. lia.
        -- intros oj c Hoj Hc. simplify_eq. rewrite HdG.
           rewrite (Hlink i (Nat.lt_le_incl _ _ Hi) oi' ci' Hoi' Hci'). cbn.
           split; [done|]. split; [done|]. apply delete_insert_eq.
        -- intros oj c o' Hoj Hc Ho'. simplify_eq.
           rewrite (drop_S key ci (S i)) by done. cbn [dead].
           destruct (old_at_child (S i) (Clone (deref h0 o)) ci)
             as (o2 & Ho2 & Hnext2); [done|done|done|].
           split.
           { pose proof (Clone_flag_ok (deref h0 o)) as Hfo.
             unfold flag_ok in Hfo. rewrite <- Hf, Hnf in Hfo.
             symmetry in Hfo. apply bool_decide_eq_false in Hfo.
             destruct (value_ (Clone (deref h0 o))); [|done]. exfalso. eauto. }
           exists o2. split.
           { apply singleton_of_delete_empty; [done|]. by rewrite <- Hch. }
           by apply (Hdead (Clone (deref h0 o)) ci o2).
        -- subst G2. unfold erase_child. by rewrite length_insert.
        -- subst G2. unfold erase_child. apply (keeps_trans _ _ G); [done|].
           apply keeps_insert. lia.
        -- subst G2. apply closed_erase_child; [done|]. lia.
      * exists G', m. split; [done|]. split; [lia|done].
    + exists G, (S i). split; [done|]. split; [done|].
      split; [done|]. right.
      apply andb_false_iff in Etest as [Hcl|Hnf].
      * right. by apply bool_decide_eq_false in Hcl.
      * left. apply negb_false_iff in Hnf. rewrite Hv.
        pose proof (old_at_flag_ok h0 old key (S i) oi Hflag Hoi) as Hfo.
        unfold flag_ok in Hfo. rewrite <- Hf, Hnf in Hfo.
        symmetry in Hfo. by apply bool_decide_eq_true in Hfo.
Qed.

(** A loop that starts below the end of the path (the counter has
    wrapped) finds a node with a child and stops at once. *)
Lemma cleanup_short n G :
  n < S len → cleanup_inv h0 h1 old key b G len →
  Remove_cleanup key (seq b (length key)) n G = Some G.
Proof.
  intros Hn (Hlow & _). destruct n as [|i]; [done|].
  rewrite Remove_cleanup_S, lookup_path by lia.
  destruct (old_at_sub i) as [oi Hoi]; [lia|].
  destruct (key_sub i) as [ci Hci]; [lia|].
  rewrite Hlow by lia.
  rewrite (Hlink i (Nat.lt_le_incl _ _ Hn) oi ci Hoi Hci).
  replace (childless _) with false; [done|].
  symmetry. apply bool_decide_eq_false. cbn. apply insert_non_empty.
Qed.

Lemma Remove_erase_shape (strict : bool) cl n :
  key !! len = Some cl → children_ ot = ∅ →
  n ≤ S len → (strict = true → n = S len) →
  ∃ h', Remove_cleanup key (seq b (length key)) n
          (erase_child (b + len) cl (clear_flag (b + S len) h1)) = Some h' ∧
        remove_shape strict true h0 h' b key old b ∧
        keeps b h0 h' ∧ closed h' ∧ length h1 = length h'.
Proof.
  intros Hcl Hempty Hn Hstrict.
  set (hB := clear_flag (b + S len) h1).
  set (hC := erase_child (b + len) cl hB).
  assert (HlenB : length hB = length h1).
  { subst hB. unfold clear_flag. by rewrite length_insert. }
  assert (HcB : closed hB).
  { subst hB. unfold clear_flag. apply closed_insert; [done|].
    intros c l. cbn. apply Hc1. lia. }
  assert (HdB : ∀ j, j < S len → deref hB (b + j) = deref h1 (b + j)).
  { intros j Hj. subst hB. unfold clear_flag. apply deref_insert_ne. lia. }
  assert (Hinv : cleanup_inv h0 h1 old key b hC len).
  { destruct (old_at_sub len) as [ol Hol]; [lia|].
    split; [|split; [|split; [|split; [|split]]]].
    - intros j Hj. subst hC. unfold erase_child.
      rewrite deref_insert_ne by lia. apply HdB. lia.
    - intros oj c Hoj Hc. rewrite Hcl in Hc. injection Hc as <-.
      subst hC. unfold erase_child.
      rewrite deref_insert_eq by lia. rewrite HdB by lia.
      rewrite (Hlink len (Nat.lt_succ_diag_r len) oj cl Hoj Hcl). cbn.
      split; [done|]. split; [done|]. apply delete_insert_eq.
    - intros oj c o Hoj Hc Ho.
      destruct (old_at_child len oj c) as (o2 & Ho2 & Hnext); [lia|done|done|].
      rewrite Ho in Ho2. injection Ho2 as <-.
      rewrite Hot in Hnext. injection Hnext as Hnext.
      rewrite drop_ge by lia. cbn [dead]. by rewrite <- Hnext.
    - subst hC. unfold erase_child. by rewrite length_insert.
    - subst hC hB. unfold erase_child, clear_flag.
      eapply keeps_trans; apply keeps_insert; lia.
    - subst hC. apply closed_erase_child; [done|]. lia. }
  assert (∃ h' m, Remove_cleanup key (seq b (length key)) n hC = Some h' ∧
            m ≤ len ∧ cleanup_inv h0 h1 old key b h' m ∧
            (n = S len → m = 0 ∨ live (deref h' (b + m))))
    as (h' & m & Hrun & Hm & (Hlow & Hcut & Hdead & Hlen' & Hk' & Hc') & Hlive).
  { destruct (decide (n = S len)) as [->|Hne].
    - destruct (cleanup_full len hC) as (h' & m & ? & ? & ? & ?); [lia|done|].
      exists h', m. split; [done|]. split; [done|]. split; [done|]. by intros _.
    - exists hC, len. rewrite cleanup_short by (done || lia).
      split; [done|]. split; [done|]. split; [done|]. by intros ?. }
  exists h'. split; [done|]. split; [|split; [|split]].
  - apply (positions_shape h0 h' b strict key m (λ j, b + j) old true).
    + cbn beta. lia.
    + intros j _. lia.
    + intros j oj c Hj Hoj Hc. cbn beta. rewrite Hlow by done.
      rewrite (Hlink j) with (oj := oj) (c := c); [|lia|done|done]. cbn.
      split; [done|]. f_equal. lia.
    + right. destruct (old_at_sub m) as [om Hom]; [lia|].
      destruct (key_sub m) as [c Hc]; [lia|].
      destruct (old_at_child m om c) as (o & Ho & _); [lia|done|done|].
      destruct (Hcut om c Hom Hc) as (Hv & _ & Hch).
      exists om, c, o. split; [done|]. split; [done|]. split; [done|].
      split; [done|]. split; [done|]. split; [by apply (Hdead om c o)|].
      intros Hs [Ht|Hm0]; [done|].
      destruct Hlive as [->|Hl]; auto. done.
  - apply (keeps_trans _ _ h1); done.
  - done.
  - done.
Qed.

End AfterWalk.

End RemoveTheory.

Section RemoveTop.
Context {val : Type}.

Local Abbreviation node := (TrieNode val).
Local Abbreviation heap := (list (TrieNode val)).

Implicit Types (h G : heap) (old m : node) (l : loc) (key k rest : list ascii).

(** ** Trie::Remove *)

Lemma Trie_Remove_spec (strict : bool) t r key h :
  root_ t = Some r → closed h → r < length h →
  (strict = true → (Z.of_nat (length key) ≤ 2 ^ 31)%Z) →
  match node_at h (deref h r) key with
  | None => Trie_Remove t key h = Some (t, h)
  | Some m =>
      match value_ m, key with
      | None, _ => Trie_Remove t key h = Some (t, h)
      | Some _, [] => Trie_Remove t key h = None
      | Some _, _ :: _ =>
          ∃ h', Trie_Remove t key h = Some (mkTrie (Some (length h)), h') ∧
                length h < length h' ∧ keeps (length h) h h' ∧ closed h' ∧
                remove_shape strict true h h' (length h) key
                  (root_copy h t) (length h)
      end
  end.
Proof.
  intros Hroot Hc Hr Hstrict. unfold Trie_Remove, root_copy. rewrite Hroot.
  unfold alloc. set (old := Clone (deref h r)). set (b := length h).
  assert (Hold : points_below b old) by (by apply points_below_Clone, Hc).
  pose proof (Remove_walk_spec h b Hc key b [] (h ++ [old])) as Hwalk.
  assert (Hd : deref (h ++ [old]) b = old) by apply deref_app_new.
  rewrite Hd in Hwalk.
  specialize (Hwalk (keeps_app b h [old] (le_n _)) (closed_alloc h old Hc Hold)
                (le_n _)).
  rewrite length_app in Hwalk. cbn [length] in Hwalk.
  specialize (Hwalk (Nat.add_1_r _) Hold).
  pose proof (old_at_node_at h old (deref h r) key
                (Clone_value _) (Clone_children _)) as Hrel.
  destruct (node_at h (deref h r) key) as [m|].
  2:{ rewrite Hrel in Hwalk. by rewrite Hwalk. }
  destruct Hrel as (m' & Hm' & Hv & Hch). rewrite Hm' in Hwalk.
  destruct Hwalk as (h1 & Hrun & Hlen1 & Hk1 & Hc1 & Hlink & Hend).
  rewrite Hrun. cbn [app].
  pose proof (old_at_flag_ok h old key _ m' (Clone_flag_ok _) Hm') as Hfo.
  unfold flag_ok in Hfo. rewrite Hend, Hfo, Hv.
  destruct (value_ m) as [x|] eqn:Hx; [|done].
  rewrite bool_decide_eq_true_2 by eauto. cbn [negb].
  destruct key as [|c rest]; [by destruct (negb _)|].
  set (key := c :: rest) in *. set (len := length rest).
  assert (Hlenk : length key = S len) by done.
  rewrite Hlenk in *. 
  replace (S len - 1) with len by lia.
  destruct (lookup_lt_is_Some_2 key len) as [cl Hcl]; [lia|].
  rewrite last_seq, Hcl. rewrite <- Hend in Hm'.
  assert (Hk01 : keeps b h h1).
  { apply (keeps_trans _ _ (h ++ [old])); [by apply keeps_app|done]. }
  unfold childless. rewrite <- Hend.
  destruct (decide (children_ (deref h1 (b + S len)) = ∅)) as [Hempty|Hne].
  - rewrite bool_decide_eq_true_2 by done. cbn [negb].
    rewrite length_seq.
    destruct (Remove_erase_shape h h1 b len key old Hlenk Hk01 Hc1 Hlen1 Hlink Hm'
                (Clone_flag_ok _) strict cl
                (Z.to_nat (to_int (Z.of_nat (S len) - 1) + 1)) Hcl Hempty)
      as (h' & Hclean & Hshape & Hk' & Hc' & Hlen').
    + apply cleanup_count_le.
    + intros Hs. apply cleanup_count_eq. by apply Hstrict.
    + rewrite Hlenk in Hclean. rewrite Hclean.
      exists h'. split; [done|]. split; [lia|done].
  - rewrite bool_decide_eq_false_2 by done. cbn [negb].
    destruct (Remove_demote_shape h h1 b len key old Hlenk Hk01 Hc1 Hlen1 Hlink Hm'
                strict cl Hcl Hne) as (Hshape & Hk' & Hc' & Hlen').
    rewrite Hlen1. eexists. split; [done|]. split; [lia|done].
Qed.

(** [Remove] hands back the receiver itself (and the heap untouched) when
    the key stores no value. *)
Lemma Trie_Remove_noop t key h :
  closed h → (∀ r, root_ t = Some r → r < length h) →
  Trie_value_at h t key = None →
  Trie_Remove t key h = Some (t, h).
Proof.
  intros Hc Hr. unfold Trie_value_at, Trie_node_at.
  destruct (root_ t) as [r|] eqn:Hroot.
  - pose proof (Trie_Remove_spec false t r key h Hroot Hc (Hr r eq_refl)) as Hs.
    destruct (node_at h (deref h r) key) as [m|]; cbn.
    + intros Hv. rewrite Hv in Hs. by apply Hs.
    + intros _. by apply Hs.
  - intros _. unfold Trie_Remove. by rewrite Hroot.
Qed.

End RemoveTop.

Section TrieTheory.
Context {val ty : Type} `{!Typed ty val}.

Local Abbreviation node := (TrieNode val).
Local Abbreviation heap := (list (TrieNode val)).

Implicit Types (h : heap) (t : Trie) (old m : node) (l : loc) (key k : list ascii).

(** ** [Get] reads the value found by following the key *)

Lemma Trie_Get_node_at T t key h :
  Trie_Get T t key h = Trie_node_at h t key ≫= dynamic_cast T.
Proof.
  unfold Trie_Get, Trie_node_at. destruct (root_ t) as [r|]; [|done].
  rewrite <- Get_walk_node_at. by destruct (Get_walk h r key).
Qed.

Lemma Trie_Get_value_at T t key h :
  Trie_Get T t key h
  = Trie_value_at h t key ≫= λ x, if decide (type_of x = T) then Some x else None.
Proof.
  rewrite Trie_Get_node_at. unfold Trie_value_at.
  destruct (Trie_node_at h t key) as [m|]; [|done]. cbn.
  unfold dynamic_cast. by destruct (value_ m).
Qed.

Lemma Trie_Get_ext T t t' key h h' :
  Trie_value_at h' t' key = Trie_value_at h t key →
  Trie_Get T t' key h' = Trie_Get T t key h.
Proof. intros Heq. by rewrite !Trie_Get_value_at, Heq. Qed.

(** ** A published trie reads the same in every later heap *)

Lemma Trie_node_at_keeps t key h h' :
  closed h → Trie_wf h t → keeps (length h) h h' →
  Trie_node_at h' t key = Trie_node_at h t key.
Proof.
  intros Hc Hwf Hk. unfold Trie_node_at, Trie_wf in *.
  destruct (root_ t) as [r|]; [|done]. destruct Hwf as [Hr _].
  rewrite (deref_keeps _ _ _ _ Hk) by done.
  apply (node_at_frame (length h)); [done|done|]. by apply Hc.
Qed.

Lemma Trie_wf_keeps t h h' :
  Trie_wf h t → keeps (length h) h h' → length h ≤ length h' → Trie_wf h' t.
Proof.
  unfold Trie_wf. destruct (root_ t) as [r|]; [|done].
  intros [Hr Hv] Hk Hlen. split; [lia|].
  by rewrite (deref_keeps _ _ _ _ Hk).
Qed.

Lemma Trie_value_at_root_copy t key h :
  value_at h (root_copy h t) key = Trie_value_at h t key.
Proof.
  unfold root_copy, Trie_value_at, Trie_node_at.
  destruct (root_ t) as [r|].
  - apply value_at_Clone.
  - apply value_at_new.
Qed.

Lemma pruned_under_root_copy t h :
  Trie_pruned h t → pruned_under h (root_copy h t).
Proof.
  unfold Trie_pruned, Trie_node_at, root_copy. intros Hp k m Hk.
  destruct (root_ t) as [r|].
  - destruct k as [|c k']; [done|]. rewrite node_at_Clone_cons. by apply Hp.
  - destruct k as [|c k']; [done|]. cbn. by rewrite lookup_empty.
Qed.

Lemma root_copy_points_below t h :
  closed h → Trie_wf h t → points_below (length h) (root_copy h t).
Proof.
  intros Hc Hwf. unfold root_copy, Trie_wf in *.
  destruct (root_ t) as [r|].
  - apply points_below_Clone, Hc. by destruct Hwf.
  - apply points_below_new.
Qed.

Lemma root_copy_value t h : Trie_wf h t → value_ (root_copy h t) = None.
Proof.
  unfold root_copy, Trie_wf. destruct (root_ t) as [r|]; [|done].
  intros [_ Hv]. by rewrite Clone_value.
Qed.

(** ** [Put], summed up *)

Lemma Trie_Put_total t key value h :
  key ≠ [] → closed h → Trie_wf h t →
  ∃ h', Trie_Put t key value h = Some (mkTrie (Some (length h)), h') ∧
        length h < length h' ∧ keeps (length h) h h' ∧ closed h' ∧
        Trie_wf h' (mkTrie (Some (length h))) ∧
        (∀ k, Trie_value_at h' (mkTrie (Some (length h))) k
              = if decide (k = key) then Some value else Trie_value_at h t k) ∧
        (Trie_pruned h t → Trie_pruned_all h' (mkTrie (Some (length h)))).
Proof.
  intros Hkey Hc Hwf.
  destruct (Trie_Put_shape t key value h Hkey Hc)
    as (h' & Hrun & Hlen & Hk & Hc' & Hs).
  { intros r Hr. unfold Trie_wf in Hwf. rewrite Hr in Hwf. by destruct Hwf. }
  pose proof (root_copy_points_below t h Hc Hwf) as Hpb.
  exists h'. split; [done|]. split; [done|]. split; [done|]. split; [done|].
  split; [|split].
  - unfold Trie_wf. cbn. split; [done|].
    destruct key as [|c rest]; [done|]. cbn in Hs.
    destruct Hs as (l1 & _ & Hv & _). rewrite Hv. by apply root_copy_value.
  - intros k. unfold Trie_value_at at 1. unfold Trie_node_at. cbn [root_].
    fold (value_at h' (deref h' (length h)) k).
    rewrite (put_shape_value_at h h' (length h) value Hc Hk key _ _ k Hpb Hs).
    by rewrite Trie_value_at_root_copy.
  - intros Hp k m. unfold Trie_node_at. cbn [root_]. destruct k as [|c k'].
    + cbn. intros [= <-]. by eapply put_shape_live.
    + apply (put_shape_pruned h h' (length h) value Hc Hk key _ _ Hpb Hs); [|done].
      by apply pruned_under_root_copy.
Qed.

(** ** [Remove], summed up *)

Lemma Trie_Remove_total (strict : bool) t key h :
  closed h → Trie_wf h t →
  (strict = true → (Z.of_nat (length key) ≤ 2 ^ 31)%Z) →
  ∃ t' h', Trie_Remove t key h = Some (t', h') ∧
    length h ≤ length h' ∧ keeps (length h) h h' ∧ closed h' ∧ Trie_wf h' t' ∧
    (Trie_value_at h t key = None → t' = t ∧ h' = h) ∧
    (is_Some (Trie_value_at h t key) →
       t' = mkTrie (Some (length h)) ∧ length h < length h') ∧
    (is_Some (root_ t') ↔ is_Some (root_ t)) ∧
    (∀ k, Trie_value_at h' t' k
          = if decide (k = key) then None else Trie_value_at h t k) ∧
    (∀ m, Trie_node_at h t key = Some m → is_Some (value_ m) → children_ m ≠ ∅ →
          ∃ m', Trie_node_at h' t' key = Some m' ∧
                value_ m' = None ∧ children_ m' = children_ m) ∧
    (strict = true → Trie_pruned h t → Trie_pruned h' t').
Proof.
  intros Hc Hwf Hstrict.
  destruct (Trie_value_at h t key) as [x|] eqn:Hx.
  - (* the key stores a value *)
    unfold Trie_value_at, Trie_node_at in Hx.
    pose proof Hwf as Hwf'. unfold Trie_wf in Hwf'.
    destruct (root_ t) as [r|] eqn:Hroot; [|done]. destruct Hwf' as [Hr Hrv].
    pose proof (Trie_Remove_spec strict t r key h Hroot Hc Hr Hstrict) as Hs.
    destruct (node_at h (deref h r) key) as [m|] eqn:Hm; [|done]. cbn in Hx.
    rewrite Hx in Hs. destruct key as [|c rest].
    { cbn in Hm. injection Hm as <-. congruence. }
    destruct Hs as (h' & Hrun & Hlen & Hk & Hc' & Hshape).
    pose proof (root_copy_points_below t h Hc Hwf) as Hpb.
    exists (mkTrie (Some (length h))), h'. split; [done|]. split; [lia|].
    split; [done|]. split; [done|]. split; [|split; [done|split; [done|split; [|split; [|split]]]]].
    + unfold Trie_wf. cbn [root_]. split; [done|].
      cbn in Hshape. destruct Hshape as (Hv & _). rewrite Hv.
      by apply root_copy_value.
    + cbn [root_]. split; eauto.
    + intros k. unfold Trie_value_at at 1. unfold Trie_node_at. cbn [root_].
      fold (value_at h' (deref h' (length h)) k).
      rewrite (remove_shape_value_at h h' (length h) Hc Hk strict true
                 (c :: rest) _ _ k Hpb Hshape).
      by rewrite Trie_value_at_root_copy.
    + intros m0 Hm0 _ Hne. unfold Trie_node_at in *. cbn [root_].
      apply (remove_shape_demoted h h' (length h) strict true (c :: rest)
               (root_copy h t) (length h) m0 Hshape); [|done].
      unfold root_copy. rewrite Hroot in *. by rewrite node_at_Clone_cons.
    + intros -> Hp k m0 Hk0. unfold Trie_node_at. cbn [root_].
      destruct (remove_shape_pruned h h' (length h) Hc Hk true (c :: rest)
                  (root_copy h t) (length h) Hpb Hshape) as [_ Hpr].
      { by apply pruned_under_root_copy. }
      by apply Hpr.
  - (* nothing to remove *)
    assert (Hrun : Trie_Remove t key h = Some (t, h)).
    { apply Trie_Remove_noop; [done| |done].
      intros r Hroot. unfold Trie_wf in Hwf. rewrite Hroot in Hwf. by destruct Hwf. }
    exists t, h. split; [done|]. split; [done|]. split; [apply keeps_refl|].
    split; [done|]. split; [done|]. split; [done|].
    split; [by intros [? ?]|]. split; [done|]. split; [|split; [|done]].
    + intros k. case_decide; [by subst|done].
    + intros m Hm [x Hv]. unfold Trie_value_at in Hx. rewrite Hm in Hx.
      cbn in Hx. congruence.
Qed.

End TrieTheory.

Section StoreTheory.
Context {val ty : Type} `{!Typed ty val}.

Local Abbreviation node := (TrieNode val).
Local Abbreviation heap := (list (TrieNode val)).

Implicit Types (h : heap) (t : Trie) (s : TrieStore) (key k : list ascii).

Lemma Trie_eqb_refl t : Trie_eqb t t = true.
Proof. unfold Trie_eqb. by apply bool_decide_eq_true. Qed.

Lemma closed_nil : closed ([] : heap).
Proof. intros l Hl. cbn in Hl. lia. Qed.

Lemma Store_wf_new : Store_wf TrieStore_new ([] : heap).
Proof.
  split; [apply closed_nil|]. split; [done|].
  intros t ->%list_elem_of_singleton. done.
Qed.

Lemma Store_wf_last s h :
  Store_wf s h → ∃ t, last (snapshots_ s) = Some t ∧ Trie_wf h t.
Proof.
  intros (_ & Hne & Hwf). destruct (last (snapshots_ s)) as [t|] eqn:E.
  - exists t. split; [done|]. by apply Hwf, last_Some_elem_of.
  - by apply last_None in E.
Qed.

Lemma Store_wf_snoc s h h' t' :
  Store_wf s h → keeps (length h) h h' → length h ≤ length h' →
  closed h' → Trie_wf h' t' →
  Store_wf (mkTrieStore (snapshots_ s ++ [t'])) h'.
Proof.
  intros (Hc & Hne & Hwf) Hk Hlen Hc' Hwf'. split; [done|]. split.
  - cbn. by destruct (snapshots_ s).
  - cbn. intros t [Ht| ->%list_elem_of_singleton]%elem_of_app; [|done].
    apply (Trie_wf_keeps t h h'); auto.
Qed.

Lemma Store_wf_keeps s h h' :
  Store_wf s h → keeps (length h) h h' → length h ≤ length h' →
  closed h' → Store_wf s h'.
Proof.
  intros (Hc & Hne & Hwf) Hk Hlen Hc'. split; [done|]. split; [done|].
  intros t Ht. apply (Trie_wf_keeps t h h'); auto.
Qed.

Lemma snapshots_size_snoc s t :
  snapshots_size (mkTrieStore (snapshots_ s ++ [t])) = (snapshots_size s + 1)%Z.
Proof. unfold snapshots_size. cbn. rewrite length_app. cbn. lia. Qed.

(** ** TrieStore::Put with a key that is not empty *)

Lemma TrieStore_Put_total key value s h :
  key ≠ [] → Store_wf s h →
  ∃ t h', last (snapshots_ s) = Some t ∧
    Trie_Put t key value h = Some (mkTrie (Some (length h)), h') ∧
    let s' := mkTrieStore (snapshots_ s ++ [mkTrie (Some (length h))]) in
    TrieStore_Put key value s h = Some (get_version s', s', h') ∧
    Store_wf s' h' ∧ keeps (length h) h h' ∧ length h ≤ length h'.
Proof.
  intros Hkey Hwf. destruct (Store_wf_last s h Hwf) as (t & Hlast & Hwft).
  pose proof Hwf as (Hc & _).
  destruct (Trie_Put_total t key value h Hkey Hc Hwft)
    as (h' & Hrun & Hlen & Hk & Hc' & Hwf' & _).
  exists t, h'. split; [done|]. split; [done|]. cbn zeta.
  unfold TrieStore_Put. rewrite Hlast, Hrun. split; [done|].
  split; [|split; [done|lia]]. apply (Store_wf_snoc s h h'); auto. lia.
Qed.

(** ** One write, many writes *)

Lemma store_apply_wf op s h v s' h' :
  Store_wf s h → store_apply (val := val) op s h = Some (v, s', h') →
  Store_wf s' h' ∧ snapshots_ s `prefix_of` snapshots_ s' ∧
  keeps (length h) h h' ∧ length h ≤ length h'.
Proof.
  intros Hwf. destruct op as [key value|key]; cbn [store_apply].
  - destruct key as [|c rest].
    + unfold TrieStore_Put. destruct (last (snapshots_ s)); [|done].
      by rewrite Trie_Put_nil.
    + destruct (TrieStore_Put_total (c :: rest) value s h) as
        (t & h1 & _ & _ & Hrun & Hwf' & Hk & Hlen); [done|done|].
      cbn zeta in Hrun. rewrite Hrun. intros [= <- <- <-].
      split; [done|]. split; [|done]. cbn. by apply prefix_app_r.
  - destruct (Store_wf_last s h Hwf) as (t & Hlast & Hwft).
    pose proof Hwf as (Hc & _).
    destruct (Trie_Remove_total false t key h Hc Hwft)
      as (t1 & h1 & Hrun & Hlen & Hk & Hc' & Hwf' & _); [done|].
    unfold TrieStore_Remove. rewrite Hlast, Hrun.
    destruct (Trie_eqb t1 t); intros [= <- <- <-].
    + split; [|done]. by apply (Store_wf_keeps s h h1).
    + split; [by apply (Store_wf_snoc s h h1)|].
      split; [|done]. cbn. by apply prefix_app_r.
Qed.

Lemma reachable_wf s h : reachable (val := val) s h → Store_wf s h.
Proof.
  induction 1 as [|op s h v s' h' _ IH Hstep]; [apply Store_wf_new|].
  by destruct (store_apply_wf op s h v s' h' IH Hstep).
Qed.

Lemma later_state_wf s h s' h' :
  Store_wf s h → later_state (val := val) s h s' h' →
  Store_wf s' h' ∧ snapshots_ s `prefix_of` snapshots_ s' ∧
  keeps (length h) h h' ∧ length h ≤ length h'.
Proof.
  intros Hwf. induction 1 as [|op s h s1 h1 v s2 h2 _ IH Hstep].
  - split; [done|]. split; [done|]. split; [apply keeps_refl|done].
  - destruct (IH Hwf) as (Hwf1 & Hp1 & Hk1 & Hlen1).
    destruct (store_apply_wf op s1 h1 v s2 h2 Hwf1 Hstep) as (Hwf2 & Hp2 & Hk2 & Hlen2).
    split; [done|]. split; [by etrans|]. split; [|lia].
    apply (keeps_trans _ _ h1); [done|]. by apply (keeps_le _ (length h1)).
Qed.

(** ** Reading a version *)

Lemma size_t_small z : (0 ≤ z ≤ SIZE_MAX)%Z → size_t z = z.
Proof. unfold size_t, SIZE_MAX. intros Hz. apply Z.mod_small. lia. Qed.

Lemma size_t_minus_one : size_t (-1) = SIZE_MAX.
Proof. by vm_compute. Qed.

(** A version number that is a valid index selects that snapshot. *)
Lemma TrieStore_Get_index T key (version : Z) s h (i : nat) trie :
  version = Z.of_nat i → version ≠ SIZE_MAX → snapshots_ s !! i = Some trie →
  TrieStore_Get T key version s h
  = match Trie_Get T trie key h with
    | None => None
    | Some x => Some (mkValueGuard trie x)
    end.
Proof.
  intros -> Hne Hi. unfold TrieStore_Get.
  rewrite (decide_False (P := Z.of_nat i = SIZE_MAX)) by done.
  apply lookup_lt_Some in Hi as Hlt.
  rewrite decide_False by (unfold snapshots_size; lia).
  by rewrite Nat2Z.id, Hi.
Qed.


(** The sentinel selects the last snapshot. *)
Lemma TrieStore_Get_sentinel T key s h :
  (snapshots_size s ≤ SIZE_MAX)%Z →
  TrieStore_Get T key SIZE_MAX s h
  = match last (snapshots_ s) with
    | None => None
    | Some trie =>
        match Trie_Get T trie key h with
        | None => None
        | Some x => Some (mkValueGuard trie x)
        end
    end.
Proof.
  intros Hfit. unfold TrieStore_Get.
  rewrite (decide_True (P := SIZE_MAX = SIZE_MAX)) by done.
  unfold snapshots_size in *. rewrite last_lookup.
  destruct (snapshots_ s) as [|t0 ts] eqn:E.
  - cbn [length]. change (Z.of_nat 0 - 1)%Z with (-1)%Z.
    rewrite size_t_minus_one. by rewrite decide_True.
  - rewrite size_t_small by (cbn [length] in *; lia).
    rewrite decide_False by lia.
    replace (Z.to_nat (Z.of_nat (length (t0 :: ts)) - 1))
      with (pred (length (t0 :: ts))) by (cbn [length]; lia).
    done.
Qed.

End StoreTheory.

(** * The claims *)

Section Claims.
Context {val ty : Type} `{!Typed ty val}.

Local Abbreviation node := (TrieNode val).
Local Abbreviation heap := (list (TrieNode val)).

Implicit Types (h : heap) (t : Trie) (s : TrieStore) (key k : list ascii).

Lemma closedb_closed h : closedb h = true → closed h.
Proof.
  unfold closedb. rewrite forallb_forall. intros Hall l Hl c l' Hc.
  destruct (lookup_lt_is_Some_2 h l Hl) as [n Hn].
  rewrite (deref_lookup h l n Hn) in Hc.
  assert (Hin : In n h) by (by apply list_elem_of_In, list_elem_of_lookup_2 with l).
  specialize (Hall n Hin). rewrite forallb_forall in Hall.
  assert (Hin' : In (c, l') (map_to_list (children_ n))).
  { by apply list_elem_of_In, elem_of_map_to_list. }
  specialize (Hall _ Hin'). cbn in Hall. by apply bool_decide_eq_true in Hall.
Qed.

(** ** Round trip, where [Put] is defined *)

Theorem Trie_Put_Get_roundtrip t key value h :
  key ≠ [] → closed h → Trie_wf h t →
  ∃ t' h', Trie_Put t key value h = Some (t', h') ∧
           Trie_Get (type_of value) t' key h' = Some value ∧
           ∀ T k, k ≠ key → Trie_Get T t' k h' = Trie_Get T t k h.
Proof.
  intros Hkey Hc Hwf.
  destruct (Trie_Put_total t key value h Hkey Hc Hwf)
    as (h' & Hrun & _ & _ & _ & _ & Hval & _).
  exists (mkTrie (Some (length h))), h'. split; [done|]. split.
  - rewrite Trie_Get_value_at, Hval, decide_True by done. cbn.
    by rewrite decide_True.
  - intros T k Hk. apply Trie_Get_ext. rewrite Hval. by rewrite decide_False.
Qed.

(** C1 (defect of the code).  The claim promises [Put(k, v).Get<T>(k) = v]
    for every key, the empty key included.  For the empty key the loop of
    [Put] never runs, [copy] is still a null pointer when
    [copy->children_[key[len-1]]] is evaluated, and the call has no
    result at all. *)
Theorem C1_Put_empty_key_undefined t (value : val) h :
  Trie_Put t [] value h = None.
Proof. apply Trie_Put_nil. Qed.

(** C2.  Removing a key that stores a value: the key then misses for every
    type, every other key reads as before, and when the node of the key had
    children it is still there, as a node without value and with the same
    children. *)
Theorem C2_Remove_then_miss t key h (x : val) :
  closed h → Trie_wf h t → Trie_value_at h t key = Some x →
  ∃ t' h', Trie_Remove t key h = Some (t', h') ∧
    (∀ T : ty, Trie_Get T t' key h' = None) ∧
    (∀ (T : ty) k, k ≠ key → Trie_Get T t' k h' = Trie_Get T t k h) ∧
    (∀ m, Trie_node_at h t key = Some m → children_ m ≠ ∅ →
          ∃ m', Trie_node_at h' t' key = Some m' ∧
                value_ m' = None ∧ children_ m' = children_ m).
Proof.
  intros Hc Hwf Hx.
  destruct (Trie_Remove_total false t key h Hc Hwf)
    as (t' & h' & Hrun & _ & _ & _ & _ & _ & _ & _ & Hval & Hdem & _); [done|].
  exists t', h'. split; [done|]. split; [|split].
  - intros T. rewrite Trie_Get_value_at, Hval. by rewrite decide_True.
  - intros T k Hk. apply Trie_Get_ext. rewrite Hval. by rewrite decide_False.
  - intros m Hm Hne. apply Hdem; [done| |done].
    unfold Trie_value_at in Hx. rewrite Hm in Hx. cbn in Hx. eauto.
Qed.

(** C3 (defect of the code).  [Put] is claimed total, the empty key
    included.  [TrieStore::Put] passes the key on to [Trie::Put], which has
    no result for the empty key (see C1); nothing is appended and no version
    number is returned. *)
Theorem C3_Store_Put_empty_key_undefined (value : val) s h :
  TrieStore_Put [] value s h = None.
Proof.
  unfold TrieStore_Put. destruct (last (snapshots_ s)); [|done].
  by rewrite Trie_Put_nil.
Qed.

(** For every other key [Put] is total, on the trie and on the store. *)
Theorem TrieStore_Put_appends key (value : val) s h :
  key ≠ [] → Store_wf s h →
  ∃ v s' h' t', TrieStore_Put key value s h = Some (v, s', h') ∧
    snapshots_ s' = snapshots_ s ++ [t'] ∧
    v = size_t (Z.of_nat (length (snapshots_ s))) ∧
    Trie_value_at h' t' key = Some value.
Proof.
  intros Hkey Hwf.
  destruct (TrieStore_Put_total key value s h Hkey Hwf)
    as (t & h' & Hlast & Hput & Hrun & _).
  cbn zeta in Hrun.
  destruct Hwf as (Hc & _ & Hwf).
  destruct (Trie_Put_total t key value h Hkey Hc) as (h2 & Hput2 & _ & _ & _ & _ & Hval & _).
  { by apply Hwf, last_Some_elem_of. }
  rewrite Hput in Hput2. injection Hput2 as <-.
  eexists _, _, h', _. split; [exact Hrun|]. split; [done|]. split.
  - unfold get_version. rewrite snapshots_size_snoc.
    unfold snapshots_size. f_equal. lia.
  - rewrite Hval. by rewrite decide_True.
Qed.

(** [Remove] of a key that stores a value builds a new root, which is not
    the old one: the store appends the new trie as one more version. *)
Theorem TrieStore_Remove_appends key s h t (x : val) :
  Store_wf s h → last (snapshots_ s) = Some t →
  Trie_value_at h t key = Some x →
  ∃ v s' h' t', TrieStore_Remove key s h = Some (v, s', h') ∧
    snapshots_ s' = snapshots_ s ++ [t'] ∧
    v = size_t (Z.of_nat (length (snapshots_ s))) ∧
    Trie_value_at h' t' key = None.
Proof.
  intros (Hc & Hne & Hwf) Hlast Hx.
  assert (Hwft : Trie_wf h t) by (by apply Hwf, last_Some_elem_of).
  destruct (Trie_Remove_total false t key h Hc Hwft)
    as (t' & h' & Hrun & _ & _ & _ & _ & _ & Hnew & _ & Hval & _); [done|].
  destruct Hnew as [-> Hlen]; [by rewrite Hx|].
  assert (Hneq : Trie_eqb (mkTrie (Some (length h))) t = false).
  { unfold Trie_eqb. apply bool_decide_eq_false. cbn. intros Heq.
    unfold Trie_wf in Hwft. rewrite <- Heq in Hwft. cbn in Hwft.
    destruct Hwft as [Hlt _]. lia. }
  exists (size_t (Z.of_nat (length (snapshots_ s)))),
    (mkTrieStore (snapshots_ s ++ [mkTrie (Some (length h))])), h',
    (mkTrie (Some (length h))).
  unfold TrieStore_Remove. rewrite Hlast, Hrun, Hneq.
  split; [|split; [done|split; [done|]]].
  - rewrite snapshots_size_snoc. unfold snapshots_size.
    by replace (Z.of_nat (length (snapshots_ s)) + 1 - 1)%Z
      with (Z.of_nat (length (snapshots_ s))) by lia.
  - rewrite Hval. by rewrite decide_True.
Qed.

(** C4 (defect of the code).  The claim promises that [Remove] keeps the
    pruning invariant, in particular for a key of one character whose node
    has no children and whose removal leaves the root without value and
    without children.  Take any such trie: the root has the one child [c],
    and the node under [c] holds a value and has no children.  No node of it
    is empty.  [Remove] of the key [c] erases the child from the copy of
    the root; the clean-up loop then finds that copy empty at [i = 0],
    where [if (i > 0)] leaves it nothing to do; and the trie [Remove]
    answers with has a root without value and without children: an empty
    node in a published trie. *)
Theorem C4_Remove_leaves_empty_root t (r : loc) (c : ascii) (o : loc) (x : val) h :
  closed h → Trie_wf h t → root_ t = Some r →
  children_ (deref h r) = {[c := o]} →
  value_ (deref h o) = Some x → children_ (deref h o) = ∅ →
  Trie_pruned_all h t ∧
  ∃ r' h', Trie_Remove t [c] h = Some (mkTrie (Some r'), h') ∧
    value_ (deref h' r') = None ∧ children_ (deref h' r') = ∅ ∧
    ¬ Trie_pruned_all h' (mkTrie (Some r')).
Proof.
  intros Hc Hwf Hroot Hch Hx Ho.
  assert (Hr : r < length h ∧ value_ (deref h r) = None).
  { unfold Trie_wf in Hwf. by rewrite Hroot in Hwf. }
  destruct Hr as [Hr Hrv]. split.
  - intros k m. unfold Trie_node_at. rewrite Hroot.
    destruct k as [|c1 k1]; cbn.
    { intros [= <-]. right. rewrite Hch. apply insert_non_empty. }
    rewrite Hch. destruct (decide (c1 = c)) as [->|Hne].
    + rewrite lookup_singleton_eq. destruct k1 as [|c2 k2]; cbn.
      * intros [= <-]. left. by rewrite Hx.
      * by rewrite Ho, lookup_empty.
    + by rewrite lookup_singleton_ne.
  - pose proof (Trie_Remove_spec true t r [c] h Hroot Hc Hr) as Hs.
    cbn [node_at] in Hs. rewrite Hch, lookup_singleton_eq, Hx in Hs.
    destruct Hs as (h' & Hrun & _ & _ & _ & Hshape); [cbn; lia|].
    unfold root_copy in Hshape. rewrite Hroot in Hshape.
    cbn [remove_shape] in Hshape.
    rewrite Clone_value, Clone_children, Hrv, Hch in Hshape.
    destruct Hshape as (Hv & o' & Ho' & Hcase).
    rewrite lookup_singleton_eq in Ho'. injection Ho' as <-.
    assert (Hempty : children_ (deref h' (length h)) = ∅).
    { destruct Hcase as [(Hcut & _)|(l1 & _ & _ & _ & _ & Hne)].
      - by rewrite Hcut, delete_singleton_eq.
      - by rewrite Clone_children in Hne. }
    exists (length h), h'. split; [done|]. split; [done|]. split; [done|].
    intros Hp. destruct (Hp [] (deref h' (length h)) eq_refl) as [[y Hy]|Hne].
    + rewrite Hv in Hy. discriminate Hy.
    + by apply Hne.
Qed.

(** X18.  Below the root the pruning invariant is kept.  Take a trie in
    which no node below the root is without value and without children.
    [Put] of a key that is not empty answers with a trie that has no such
    node at all, the root included.  [Remove] of a key of at most 2^31
    characters (the range of the [int] loop counter) answers with a trie
    that has no such node below the root, and that has a root whenever
    the receiver had one. *)
Theorem pruning_below_root t h key_put (value : val) key_rm :
  closed h → Trie_wf h t → Trie_pruned h t →
  key_put ≠ [] → (Z.of_nat (length key_rm) ≤ 2 ^ 31)%Z →
  (∃ t' h', Trie_Put t key_put value h = Some (t', h') ∧ Trie_pruned_all h' t') ∧
  (∃ t' h', Trie_Remove t key_rm h = Some (t', h') ∧ Trie_pruned h' t' ∧
            (is_Some (root_ t') ↔ is_Some (root_ t))).
Proof.
  intros Hc Hwf Hp Hkey Hlen. split.
  - destruct (Trie_Put_total t key_put value h Hkey Hc Hwf)
      as (h' & Hrun & _ & _ & _ & _ & _ & Hpr).
    eexists _, h'. split; [done|]. by apply Hpr.
  - destruct (Trie_Remove_total true t key_rm h Hc Hwf)
      as (t' & h' & Hrun & _ & _ & _ & _ & _ & _ & Hroot & _ & _ & Hpr); [done|].
    exists t', h'. split; [done|]. split; [by apply Hpr|done].
Qed.

Lemma Trie_Put_pruned_all t key (value : val) h t' h' :
  key ≠ [] → closed h → Trie_wf h t → Trie_pruned h t →
  Trie_Put t key value h = Some (t', h') →
  closed h' ∧ Trie_wf h' t' ∧ Trie_pruned_all h' t'.
Proof.
  intros Hkey Hc Hwf Hp Hrun.
  destruct (Trie_Put_total t key value h Hkey Hc Hwf)
    as (h2 & Hrun2 & _ & _ & Hc' & Hwf' & _ & Hpr).
  rewrite Hrun in Hrun2. injection Hrun2 as -> ->. auto.
Qed.

Lemma Trie_pruned_all_pruned h t : Trie_pruned_all h t → Trie_pruned h t.
Proof. intros Hp k m _. apply Hp. Qed.

(** C5.  Removing a key that stores no value (the path is broken, or it
    ends in a node without value) answers with the receiver itself, equal
    by root identity; the store whose latest version is that trie returns
    the version number it had and stays as it was. *)
Theorem C5_Remove_noop (older : list Trie) t key h :
  closed h → Trie_wf h t →
  (Trie_node_at h t key = None ∨
   ∃ m : node, Trie_node_at h t key = Some m ∧ value_ m = None) →
  (∃ t' h', Trie_Remove t key h = Some (t', h') ∧ Trie_eqb t' t = true) ∧
  TrieStore_Remove key (mkTrieStore (older ++ [t])) h
  = Some (get_version (mkTrieStore (older ++ [t])), mkTrieStore (older ++ [t]), h).
Proof.
  intros Hc Hwf Habs.
  assert (Hrun : Trie_Remove t key h = Some (t, h)).
  { apply Trie_Remove_noop; [done| |].
    - intros r Hr. unfold Trie_wf in Hwf. rewrite Hr in Hwf. by destruct Hwf.
    - unfold Trie_value_at. destruct Habs as [->|(m & -> & Hm)]; done. }
  split.
  - exists t, h. split; [done|]. apply Trie_eqb_refl.
  - unfold TrieStore_Remove. cbn [snapshots_]. rewrite last_snoc, Hrun.
    by rewrite Trie_eqb_refl.
Qed.

(** C6.  [Get<T>] is absent exactly when the path of the key is broken,
    or it ends in a node without value, or in a node whose value has
    another type; otherwise it is the value stored there.  [Get] has a
    result in every case: a miss is never an error. *)
Theorem C6_Get_semantics (T : ty) t key h :
  (Trie_Get T t key h = None ↔
     Trie_link_missing h t key ∨
     (∃ m : node, Trie_node_at h t key = Some m ∧ value_ m = None) ∨
     (∃ (m : node) x, Trie_node_at h t key = Some m ∧ value_ m = Some x ∧
                      type_of x ≠ T)) ∧
  (∀ x, Trie_Get T t key h = Some x ↔
     ∃ m : node, Trie_node_at h t key = Some m ∧ value_ m = Some x ∧
                 type_of x = T).
Proof.
  assert (Hmiss : Trie_node_at h t key = None ↔ Trie_link_missing h t key).
  { unfold Trie_node_at, Trie_link_missing. destruct (root_ t) as [r|].
    - apply node_at_None.
    - done. }
  rewrite Trie_Get_node_at. rewrite <- Hmiss.
  destruct (Trie_node_at h t key) as [m|]; cbn.
  - unfold dynamic_cast. destruct (value_ m) as [y|] eqn:Hy.
    + destruct (decide (type_of y = T)) as [Ht|Ht].
      * split.
        -- split; [done|]. intros [?|[(m' & [= <-] & ?)|(m' & x & [= <-] & ? & ?)]];
             congruence.
        -- intros x. split.
           ++ intros [= <-]. eauto.
           ++ intros (m' & [= <-] & ? & ?). congruence.
      * split.
        -- split; [|done]. intros _. right. right. eauto.
        -- intros x. split; [done|].
           intros (m' & [= <-] & ? & ?). congruence.
    + split.
      * split; [|done]. intros _. right. left. eauto.
      * intros x. split; [done|]. intros (m' & [= <-] & ? & ?). congruence.
  - split.
    + split; [by left|done].
    + intros x. split; [done|]. by intros (m' & ? & _).
Qed.



(** C8 (as amended).  A version number at or beyond the length of the
    sequence, other than the sentinel [size_t(-1)], reads as absent; the
    call without version argument reads the version with the highest
    valid index. *)
Theorem C8_Get_version_out_of_range (T : ty) key (version : Z) s h :
  snapshots_ s ≠ [] → (snapshots_size s ≤ SIZE_MAX)%Z →
  (snapshots_size s ≤ version)%Z → version ≠ SIZE_MAX →
  TrieStore_Get T key version s h = None ∧
  is_Some (snapshots_ s !! Z.to_nat (snapshots_size s - 1)) ∧
  TrieStore_Get_latest T key s h
  = TrieStore_Get T key (snapshots_size s - 1) s h.
Proof.
  intros Hne Hfit Hv Hsent.
  assert (Hpos : 0 < length (snapshots_ s)) by (destruct (snapshots_ s); [done|cbn; lia]).
  unfold snapshots_size in *.
  assert (Hlt : Z.to_nat (Z.of_nat (length (snapshots_ s)) - 1) < length (snapshots_ s)) by lia.
  destruct (lookup_lt_is_Some_2 _ _ Hlt) as [trie Htrie].
  split; [|split; [eauto|]].
  - unfold TrieStore_Get. rewrite (decide_False (P := version = SIZE_MAX)) by done.
    unfold snapshots_size. by rewrite decide_True.
  - unfold TrieStore_Get_latest. rewrite size_t_minus_one.
    rewrite TrieStore_Get_sentinel by done.
    rewrite (TrieStore_Get_index T key _ s h
               (Z.to_nat (Z.of_nat (length (snapshots_ s)) - 1)) trie);
      [|lia|lia|done].
    rewrite last_lookup.
    replace (pred (length (snapshots_ s)))
      with (Z.to_nat (Z.of_nat (length (snapshots_ s)) - 1)) by lia.
    by rewrite Htrie.
Qed.

(** C10.  The version number [SIZE_MAX], passed explicitly, is the value of
    the default argument [size_t(-1)]: the call reads the latest
    snapshot. *)
Theorem C10_sentinel_reads_latest (T : ty) key s h :
  (snapshots_size s ≤ SIZE_MAX)%Z →
  size_t (-1) = SIZE_MAX ∧
  TrieStore_Get T key SIZE_MAX s h
  = match last (snapshots_ s) with
    | None => None
    | Some trie =>
        match Trie_Get T trie key h with
        | None => None
        | Some x => Some (mkValueGuard trie x)
        end
    end.
Proof.
  intros Hfit. split; [apply size_t_minus_one|]. by apply TrieStore_Get_sentinel.
Qed.

End Claims.

(** * The claims on concrete stores *)

(** ** The example stores are well formed *)

Lemma world_a_closed : closed world_a.2.
Proof. apply closedb_closed. vm_compute. reflexivity. Qed.

Lemma world_ab_closed : closed world_ab.2.
Proof. apply closedb_closed. vm_compute. reflexivity. Qed.

Lemma world_a_wf : Trie_wf world_a.2 (latest world_a).
Proof. vm_compute. split; [lia|reflexivity]. Qed.

Lemma world_ab_wf : Trie_wf world_ab.2 (latest world_ab).
Proof. vm_compute. split; [lia|reflexivity]. Qed.

Lemma world_a_pruned_all : Trie_pruned_all world_a.2 (latest world_a).
Proof.
  apply (Trie_Put_pruned_all (mkTrie None) (key_of "a") (V_int 100) []).
  - done.
  - apply closed_nil.
  - done.
  - intros k m _ Hm. discriminate Hm.
  - vm_compute. reflexivity.
Qed.

Lemma world_a_reachable : reachable world_a.1 world_a.2.
Proof.
  apply (reachable_step (OpPut (key_of "a") (V_int 100)) TrieStore_new [] 1%Z).
  - apply reachable_new.
  - vm_compute. reflexivity.
Qed.

Lemma world_a_later :
  later_state world_a.1 world_a.2 world_ab_minus_a.1 world_ab_minus_a.2.
Proof.
  apply (later_step (OpRemove (key_of "a")) _ _ world_ab.1 world_ab.2 3%Z).
  - apply (later_step (OpPut (key_of "ab") (V_int 200)) _ _ world_a.1 world_a.2 2%Z).
    + apply later_refl.
    + vm_compute. reflexivity.
  - vm_compute. reflexivity.
Qed.

(** ** The scenario of the specification, run on the model *)

Example scenario_versions :
  map (λ w : world, get_version w.1)
      [world_new; world_a; world_ab; world_ab_minus_a]
  = [0; 1; 2; 3]%Z.
Proof. vm_compute. reflexivity. Qed.

Example scenario_reads :
  map (λ '(k, v), guard_value_ <$>
         TrieStore_Get T_int (key_of k) v world_ab_minus_a.1 world_ab_minus_a.2)
      [("a", 1); ("a", 0); ("a", 2); ("ab", 2); ("a", 3); ("ab", 3)]%Z
  = [Some (V_int 100); None; Some (V_int 100); Some (V_int 200); None;
     Some (V_int 200)].
Proof. vm_compute. reflexivity. Qed.

Example scenario_type_mismatch :
  TrieStore_Get T_string (key_of "ab") 3 world_ab_minus_a.1 world_ab_minus_a.2 = None.
Proof. vm_compute. reflexivity. Qed.

Example scenario_second_remove :
  TrieStore_Remove (key_of "a") world_ab_minus_a.1 world_ab_minus_a.2
  = Some (3%Z, world_ab_minus_a.1, world_ab_minus_a.2).
Proof. vm_compute. reflexivity. Qed.

Example scenario_put_empty_key :
  run_ops [OpPut (key_of "") (V_int 1)] = None.
Proof. vm_compute. reflexivity. Qed.

(** ** The claims at concrete inputs *)

(** C2 on the trie holding "a" and "ab": [Remove("a")]. *)
Lemma C2_witness :
  closed world_ab.2 ∧ Trie_wf world_ab.2 (latest world_ab) ∧
  Trie_value_at world_ab.2 (latest world_ab) (key_of "a") = Some (V_int 100) ∧
  ∃ t' h', Trie_Remove (latest world_ab) (key_of "a") world_ab.2 = Some (t', h') ∧
    (∀ T : sample_ty, Trie_Get T t' (key_of "a") h' = None) ∧
    (∀ (T : sample_ty) k, k ≠ key_of "a" →
       Trie_Get T t' k h' = Trie_Get T (latest world_ab) k world_ab.2) ∧
    (∀ m, Trie_node_at world_ab.2 (latest world_ab) (key_of "a") = Some m →
          children_ m ≠ ∅ →
          ∃ m', Trie_node_at h' t' (key_of "a") = Some m' ∧
                value_ m' = None ∧ children_ m' = children_ m).
Proof.
  assert (Hx : Trie_value_at world_ab.2 (latest world_ab) (key_of "a")
               = Some (V_int 100)) by (vm_compute; reflexivity).
  split; [exact world_ab_closed|]. split; [exact world_ab_wf|]. split; [exact Hx|].
  exact (C2_Remove_then_miss (ty := sample_ty) _ _ _ _ world_ab_closed world_ab_wf Hx).
Defined.

(** C4 on the trie holding only "a" (root at address 0, the value node at
    address 2): [Remove("a")] answers with an empty root. *)
Lemma C4_witness :
  closed world_a.2 ∧ Trie_wf world_a.2 (latest world_a) ∧
  root_ (latest world_a) = Some 0 ∧
  children_ (deref world_a.2 0) = {["a"%char := 2]} ∧
  value_ (deref world_a.2 2) = Some (V_int 100) ∧
  children_ (deref world_a.2 2) = ∅ ∧
  Trie_pruned_all world_a.2 (latest world_a) ∧
  ∃ r' h', Trie_Remove (latest world_a) (key_of "a") world_a.2
           = Some (mkTrie (Some r'), h') ∧
    value_ (deref h' r') = None ∧ children_ (deref h' r') = ∅ ∧
    ¬ Trie_pruned_all h' (mkTrie (Some r')).
Proof.
  assert (Hr : root_ (latest world_a) = Some 0) by (vm_compute; reflexivity).
  assert (Hch : children_ (deref world_a.2 0) = {["a"%char := 2]})
    by (vm_compute; reflexivity).
  assert (Hx : value_ (deref world_a.2 2) = Some (V_int 100))
    by (vm_compute; reflexivity).
  assert (Ho : children_ (deref world_a.2 2) = ∅) by (vm_compute; reflexivity).
  split; [exact world_a_closed|]. split; [exact world_a_wf|]. split; [exact Hr|].
  split; [exact Hch|]. split; [exact Hx|]. split; [exact Ho|].
  exact (C4_Remove_leaves_empty_root _ 0 "a"%char 2 (V_int 100) _
           world_a_closed world_a_wf Hr Hch Hx Ho).
Defined.

(** The same run, with the store: the trie with the empty root is the one
    the model computes for [Put("a", 100)], [Remove("a")]. *)
Example scenario_remove_last_key :
  Trie_Remove (latest world_a) (key_of "a") world_a.2
  = Some (latest world_a_minus_a, world_a_minus_a.2) ∧
  Trie_node_at world_a_minus_a.2 (latest world_a_minus_a) [] = Some TrieNode_new ∧
  Trie_eqb (latest world_a_minus_a) (mkTrie None) = false.
Proof. repeat split; vm_compute; reflexivity. Qed.

(** X18 on the trie holding "a": [Put("ab", 200)] and [Remove("a")]. *)
Lemma pruning_below_root_witness :
  closed world_a.2 ∧ Trie_wf world_a.2 (latest world_a) ∧
  Trie_pruned world_a.2 (latest world_a) ∧
  key_of "ab" ≠ [] ∧ (Z.of_nat (length (key_of "a")) ≤ 2 ^ 31)%Z ∧
  (∃ t' h', Trie_Put (latest world_a) (key_of "ab") (V_int 200) world_a.2
            = Some (t', h') ∧ Trie_pruned_all h' t') ∧
  (∃ t' h', Trie_Remove (latest world_a) (key_of "a") world_a.2 = Some (t', h') ∧
            Trie_pruned h' t' ∧
            (is_Some (root_ t') ↔ is_Some (root_ (latest world_a)))).
Proof.
  assert (Hp : Trie_pruned world_a.2 (latest world_a))
    by (apply Trie_pruned_all_pruned, world_a_pruned_all).
  assert (Hk : key_of "ab" ≠ []) by done.
  assert (Hl : (Z.of_nat (length (key_of "a")) ≤ 2 ^ 31)%Z) by (cbn; lia).
  split; [exact world_a_closed|]. split; [exact world_a_wf|]. split; [exact Hp|].
  split; [exact Hk|]. split; [exact Hl|].
  exact (pruning_below_root _ _ _ _ _ world_a_closed world_a_wf Hp Hk Hl).
Defined.

(** C5 on the trie holding "a": [Remove("b")]. *)
Lemma C5_witness :
  closed world_a.2 ∧ Trie_wf world_a.2 (latest world_a) ∧
  (Trie_node_at world_a.2 (latest world_a) (key_of "b") = None ∨
   ∃ m, Trie_node_at world_a.2 (latest world_a) (key_of "b") = Some m ∧
        value_ m = None) ∧
  (∃ t' h', Trie_Remove (latest world_a) (key_of "b") world_a.2 = Some (t', h') ∧
            Trie_eqb t' (latest world_a) = true) ∧
  TrieStore_Remove (key_of "b") (mkTrieStore ([mkTrie None] ++ [latest world_a])) world_a.2
  = Some (get_version (mkTrieStore ([mkTrie None] ++ [latest world_a])),
          mkTrieStore ([mkTrie None] ++ [latest world_a]), world_a.2).
Proof.
  assert (Ha : Trie_node_at world_a.2 (latest world_a) (key_of "b") = None ∨
               ∃ m, Trie_node_at world_a.2 (latest world_a) (key_of "b") = Some m ∧
                    value_ m = None) by (left; vm_compute; reflexivity).
  split; [exact world_a_closed|]. split; [exact world_a_wf|]. split; [exact Ha|].
  exact (C5_Remove_noop [mkTrie None] _ _ _ world_a_closed world_a_wf Ha).
Defined.


(** C8 as stated fails: [SIZE_MAX] is beyond the two versions of the store,
    and [Get<int>("a", SIZE_MAX)] finds 100. *)
Lemma C8_counterexample :
  (snapshots_size world_a.1 ≤ SIZE_MAX)%Z ∧
  TrieStore_Get T_int (key_of "a") SIZE_MAX world_a.1 world_a.2
  = Some (mkValueGuard (latest world_a) (V_int 100)).
Proof. split; [vm_compute; done|vm_compute; reflexivity]. Qed.

(** C8 as amended: version 7 of a store with two versions. *)
Lemma C8_witness :
  snapshots_ world_a.1 ≠ [] ∧ (snapshots_size world_a.1 ≤ SIZE_MAX)%Z ∧
  (snapshots_size world_a.1 ≤ 7)%Z ∧ 7%Z ≠ SIZE_MAX ∧
  TrieStore_Get T_int (key_of "a") 7 world_a.1 world_a.2 = None ∧
  is_Some (snapshots_ world_a.1 !! Z.to_nat (snapshots_size world_a.1 - 1)) ∧
  TrieStore_Get_latest T_int (key_of "a") world_a.1 world_a.2
  = TrieStore_Get T_int (key_of "a") (snapshots_size world_a.1 - 1) world_a.1 world_a.2.
Proof.
  assert (Hn : snapshots_ world_a.1 ≠ []) by (vm_compute; done).
  assert (Hf : (snapshots_size world_a.1 ≤ SIZE_MAX)%Z) by (vm_compute; done).
  assert (Hv : (snapshots_size world_a.1 ≤ 7)%Z) by (vm_compute; done).
  assert (Hs : 7%Z ≠ SIZE_MAX) by (vm_compute; done).
  split; [exact Hn|]. split; [exact Hf|]. split; [exact Hv|]. split; [exact Hs|].
  exact (C8_Get_version_out_of_range T_int (key_of "a") 7 _ _ Hn Hf Hv Hs).
Defined.

(** C10 on the store holding "a". *)
Lemma C10_witness :
  (snapshots_size world_a.1 ≤ SIZE_MAX)%Z ∧
  size_t (-1) = SIZE_MAX ∧
  TrieStore_Get T_int (key_of "a") SIZE_MAX world_a.1 world_a.2
  = match last (snapshots_ world_a.1) with
    | None => None
    | Some trie =>
        match Trie_Get T_int trie (key_of "a") world_a.2 with
        | None => None
        | Some x => Some (mkValueGuard trie x)
        end
    end.
Proof.
  assert (Hf : (snapshots_size world_a.1 ≤ SIZE_MAX)%Z) by (vm_compute; done).
  split; [exact Hf|].
  exact (C10_sentinel_reads_latest T_int (key_of "a") _ _ Hf).
Defined.

(** * Further properties of the trie *)

Section TrieMore.
Context {val ty : Type} `{!Typed ty val}.

Local Abbreviation node := (TrieNode val).
Local Abbreviation heap := (list (TrieNode val)).

Implicit Types (h : heap) (t : Trie) (old : node) (l : loc) (key k : list ascii).

(** ** Reading after writing *)

(** X1.  [Put] of a key that is not empty stores the value under the key for
    its own type only: reading the key at another type misses, whatever
    the key held before; every other key reads as before. *)
Theorem Put_then_Get_by_type (T : ty) t key (value : val) h :
  key ≠ [] → closed h → Trie_wf h t →
  ∃ t' h', Trie_Put t key value h = Some (t', h') ∧
    Trie_Get T t' key h' = (if decide (type_of value = T) then Some value else None) ∧
    ∀ (T' : ty) k, k ≠ key → Trie_Get T' t' k h' = Trie_Get T' t k h.
Proof.
  intros Hkey Hc Hwf.
  destruct (Trie_Put_total t key value h Hkey Hc Hwf)
    as (h' & Hrun & _ & _ & _ & _ & Hval & _).
  exists (mkTrie (Some (length h))), h'. split; [done|]. split.
  - rewrite Trie_Get_value_at, Hval, decide_True by done. done.
  - intros T' k Hk. apply Trie_Get_ext. rewrite Hval. by rewrite decide_False.
Qed.

(** X2.  Two [Put]s of the same key: the second value is the one that stays,
    and the trie reads like the one a single [Put] of it gives. *)
Theorem Put_Put_last_wins t key (v1 v2 : val) h :
  key ≠ [] → closed h → Trie_wf h t →
  ∃ t1 h1 t2 h2 t3 h3,
    Trie_Put t key v1 h = Some (t1, h1) ∧ Trie_Put t1 key v2 h1 = Some (t2, h2) ∧
    Trie_Put t key v2 h = Some (t3, h3) ∧
    ∀ (T : ty) k, Trie_Get T t2 k h2 = Trie_Get T t3 k h3.
Proof.
  intros Hkey Hc Hwf.
  destruct (Trie_Put_total t key v1 h Hkey Hc Hwf)
    as (h1 & Hrun1 & _ & _ & Hc1 & Hwf1 & Hval1 & _).
  destruct (Trie_Put_total _ key v2 h1 Hkey Hc1 Hwf1)
    as (h2 & Hrun2 & _ & _ & _ & _ & Hval2 & _).
  destruct (Trie_Put_total t key v2 h Hkey Hc Hwf)
    as (h3 & Hrun3 & _ & _ & _ & _ & Hval3 & _).
  eexists _, h1, _, h2, _, h3. split; [done|]. split; [done|]. split; [done|].
  intros T k. apply Trie_Get_ext. rewrite Hval2, Hval3, Hval1.
  by case_decide.
Qed.

(** X3.  [Put]s of two different keys can be done in either order. *)
Theorem Put_Put_commute t key1 key2 (v1 v2 : val) h :
  key1 ≠ [] → key2 ≠ [] → key1 ≠ key2 → closed h → Trie_wf h t →
  ∃ ta ha tab hab tb hb tba hba,
    Trie_Put t key1 v1 h = Some (ta, ha) ∧ Trie_Put ta key2 v2 ha = Some (tab, hab) ∧
    Trie_Put t key2 v2 h = Some (tb, hb) ∧ Trie_Put tb key1 v1 hb = Some (tba, hba) ∧
    ∀ (T : ty) k, Trie_Get T tab k hab = Trie_Get T tba k hba.
Proof.
  intros Hk1 Hk2 Hne Hc Hwf.
  destruct (Trie_Put_total t key1 v1 h Hk1 Hc Hwf)
    as (ha & Hruna & _ & _ & Hca & Hwfa & Hvala & _).
  destruct (Trie_Put_total _ key2 v2 ha Hk2 Hca Hwfa)
    as (hab & Hrunab & _ & _ & _ & _ & Hvalab & _).
  destruct (Trie_Put_total t key2 v2 h Hk2 Hc Hwf)
    as (hb & Hrunb & _ & _ & Hcb & Hwfb & Hvalb & _).
  destruct (Trie_Put_total _ key1 v1 hb Hk1 Hcb Hwfb)
    as (hba & Hrunba & _ & _ & _ & _ & Hvalba & _).
  eexists _, ha, _, hab, _, hb, _, hba.
  split; [done|]. split; [done|]. split; [done|]. split; [done|].
  intros T k. apply Trie_Get_ext. rewrite Hvalab, Hvalba, Hvala, Hvalb.
  repeat case_decide; congruence.
Qed.

(** X4.  [Put] and then [Remove] of the same key: the key misses, and every
    other key reads as in the trie before the [Put]. *)
Theorem Put_then_Remove t key (value : val) h :
  key ≠ [] → closed h → Trie_wf h t →
  ∃ t1 h1 t2 h2,
    Trie_Put t key value h = Some (t1, h1) ∧ Trie_Remove t1 key h1 = Some (t2, h2) ∧
    ∀ (T : ty) k,
      Trie_Get T t2 k h2 = if decide (k = key) then None else Trie_Get T t k h.
Proof.
  intros Hkey Hc Hwf.
  destruct (Trie_Put_total t key value h Hkey Hc Hwf)
    as (h1 & Hrun1 & _ & _ & Hc1 & Hwf1 & Hval1 & _).
  destruct (Trie_Remove_total false _ key h1 Hc1 Hwf1)
    as (t2 & h2 & Hrun2 & _ & _ & _ & _ & _ & _ & _ & Hval2 & _); [done|].
  eexists _, h1, t2, h2. split; [done|]. split; [done|].
  intros T k. rewrite Trie_Get_value_at, Hval2, Hval1.
  case_decide; [done|]. by rewrite <- Trie_Get_value_at.
Qed.

(** X5.  A second [Remove] of the same key has nothing left to do: it answers
    with the trie it was called on and leaves the heap alone. *)
Theorem Remove_twice t key h :
  closed h → Trie_wf (val := val) h t →
  ∃ t1 h1, Trie_Remove t key h = Some (t1, h1) ∧
           Trie_Remove t1 key h1 = Some (t1, h1).
Proof.
  intros Hc Hwf.
  destruct (Trie_Remove_total false t key h Hc Hwf)
    as (t1 & h1 & Hrun & _ & _ & Hc1 & Hwf1 & _ & _ & _ & Hval & _); [done|].
  exists t1, h1. split; [done|].
  apply Trie_Remove_noop; [done| |].
  - intros r Hr. unfold Trie_wf in Hwf1. rewrite Hr in Hwf1. by destruct Hwf1.
  - rewrite Hval. by rewrite decide_True.
Qed.

(** ** Identity *)

Lemma fresh_root_differs h t0 :
  Trie_wf (val := val) h t0 → Trie_eqb (mkTrie (Some (length h))) t0 = false.
Proof.
  intros Hwf0. unfold Trie_eqb. apply bool_decide_eq_false. cbn. intros Heq.
  unfold Trie_wf in Hwf0. rewrite <- Heq in Hwf0. cbn in Hwf0.
  destruct Hwf0 as [Hlt _]. lia.
Qed.


(** ** The receiver is left alone *)

(** X7.  No operation changes a trie that exists already: whatever [Put] or
    [Remove] is applied to [t], every trie [t0] of the heap reads as
    before ([t] itself is one of them). *)
Theorem operations_leave_old_tries t t0 key_put (value : val) key_rm h :
  key_put ≠ [] → closed h → Trie_wf h t → Trie_wf h t0 →
  (∃ t' h', Trie_Put t key_put value h = Some (t', h') ∧
            ∀ (T : ty) k, Trie_Get T t0 k h' = Trie_Get T t0 k h) ∧
  (∃ t' h', Trie_Remove t key_rm h = Some (t', h') ∧
            ∀ (T : ty) k, Trie_Get T t0 k h' = Trie_Get T t0 k h).
Proof.
  intros Hkey Hc Hwf Hwf0. split.
  - destruct (Trie_Put_total t key_put value h Hkey Hc Hwf)
      as (h' & Hrun & _ & Hk & _).
    eexists _, h'. split; [done|]. intros T k. apply Trie_Get_ext.
    unfold Trie_value_at. by rewrite (Trie_node_at_keeps t0 k h h').
  - destruct (Trie_Remove_total false t key_rm h Hc Hwf)
      as (t' & h' & Hrun & _ & Hk & _); [done|].
    exists t', h'. split; [done|]. intros T k. apply Trie_Get_ext.
    unfold Trie_value_at. by rewrite (Trie_node_at_keeps t0 k h h').
Qed.

(** ** The root after [Remove] *)

(** X8.  When something is still stored after a [Remove], the root has a child:
    the only trie with an empty root node is one from which the last key
    was removed. *)
Theorem Remove_leaves_live_root t key h t' h' k0 (x : val) :
  closed h → Trie_wf h t → Trie_pruned h t →
  (Z.of_nat (length key) ≤ 2 ^ 31)%Z →
  Trie_Remove t key h = Some (t', h') →
  Trie_value_at h' t' k0 = Some x →
  Trie_pruned_all h' t'.
Proof.
  intros Hc Hwf Hp Hlen Hrun Hx.
  destruct (Trie_Remove_total true t key h Hc Hwf)
    as (t2 & h2 & Hrun2 & _ & _ & _ & Hwf' & _ & _ & _ & _ & _ & Hpr); [done|].
  rewrite Hrun in Hrun2. injection Hrun2 as <- <-.
  specialize (Hpr eq_refl Hp). intros k m Hm.
  destruct k as [|c k']; [|by apply (Hpr (c :: k'))].
  unfold Trie_value_at, Trie_node_at, Trie_wf in *.
  destruct (root_ t') as [r|]; [|done]. cbn in Hm. injection Hm as <-.
  destruct Hwf' as [_ Hrv]. right. intros Hempty.
  destruct k0 as [|c0 k0'].
  - cbn in Hx. congruence.
  - cbn in Hx. by rewrite Hempty, lookup_empty in Hx.
Qed.

End TrieMore.

(** * Sharing and allocation *)

Section Sharing.
Context {val : Type}.

Local Abbreviation node := (TrieNode val).
Local Abbreviation heap := (list (TrieNode val)).

Implicit Types (h : heap) (t : Trie) (old n : node) (l o : loc) (key k rest : list ascii).

(** ** Walks over addresses *)

Lemma Get_walk_frame b h h' l k :
  closed_below b h → keeps b h h' → l < b →
  Get_walk h' l k = Get_walk h l k.
Proof.
  intros Hc Hk. revert l. induction k as [|c k IH]; intros l Hl; cbn; [done|].
  rewrite (deref_keeps _ _ _ _ Hk) by done.
  destruct (children_ (deref h l) !! c) as [o|] eqn:E; [|done].
  apply IH. by apply (Hc l Hl c).
Qed.

Lemma Get_walk_cons h l c k :
  Get_walk h l (c :: k) = children_ (deref h l) !! c ≫= λ o, Get_walk h o k.
Proof. cbn. by destruct (children_ (deref h l) !! c). Qed.

Section Shapes.
Variables (h0 h' : heap) (b : nat).
Hypothesis Hclosed : closed_below b h0.
Hypothesis Hkeeps : keeps b h0 h'.

Lemma walk_shared l old c k :
  points_below b old →
  children_ (deref h' l) !! c = children_ old !! c →
  Get_walk h' l (c :: k) = children_ old !! c ≫= λ o, Get_walk h0 o k.
Proof using Hclosed Hkeeps.
  intros Hold Hc. rewrite Get_walk_cons, Hc.
  destruct (children_ old !! c) as [o|] eqn:E; [|done]. cbn.
  apply (Get_walk_frame b); auto. by apply (Hold c).
Qed.

(** Off the key path [Put] leads to the nodes of the old trie. *)
Lemma put_shape_walk_other (value : val) key old l c k :
  points_below b old →
  put_shape h0 h' b value key old l →
  ¬ (c :: k) `prefix_of` key →
  Get_walk h' l (c :: k) = children_ old !! c ≫= λ o, Get_walk h0 o k.
Proof using Hclosed Hkeeps.
  revert old l c k. induction key as [|c0 rest IH]; intros old l c k Hold;
    cbn [put_shape].
  - intros Hl _. apply walk_shared; [done|]. by rewrite Hl.
  - intros (l1 & Hl1 & Hv & Hch & Hrest) Hnp.
    destruct (decide (c = c0)) as [->|Hne].
    + rewrite Get_walk_cons, Hch, lookup_insert_eq.
      destruct k as [|c2 k2].
      { exfalso. apply Hnp. apply prefix_cons, prefix_nil. }
      cbn [mbind option_bind].
      rewrite (IH _ l1 c2 k2 (old_child_points_below h0 b Hclosed old c0 Hold) Hrest).
      * destruct (children_ old !! c0) as [o|]; cbn [mbind option_bind].
        -- by rewrite Clone_children, Get_walk_cons.
        -- cbn. by rewrite lookup_empty.
      * intros Hp. apply Hnp. by apply prefix_cons.
    + apply walk_shared; [done|]. by rewrite Hch, lookup_insert_ne.
Qed.

(** On the key path [Put] leads to fresh nodes. *)
Lemma put_shape_walk_path (value : val) key old l p l' :
  b ≤ l → put_shape h0 h' b value key old l →
  p `prefix_of` key → Get_walk h' l p = Some l' → b ≤ l'.
Proof.
  revert old l p. induction key as [|c0 rest IH]; intros old l p Hl.
  - intros _ ->%prefix_nil_inv. cbn. by intros [= <-].
  - cbn. intros (l1 & Hl1 & Hv & Hch & Hrest) Hp. destruct p as [|c p'].
    + cbn. by intros [= <-].
    + pose proof (prefix_cons_inv_1 _ _ _ _ Hp) as ->.
      apply prefix_cons_inv_2 in Hp.
      rewrite Get_walk_cons, Hch, lookup_insert_eq. cbn.
      by apply (IH _ l1 p' Hl1 Hrest).
Qed.

Lemma dead_walk n o rest k :
  dead h0 n rest → children_ n = children_ (deref h0 o) →
  ¬ k `prefix_of` rest → Get_walk h0 o k = None.
Proof.
  revert n o k. induction rest as [|c r IH]; intros n o k; cbn.
  - intros Hn Hch Hnp. destruct k as [|c2 k2].
    + exfalso. by apply Hnp.
    + by rewrite Get_walk_cons, <- Hch, Hn, lookup_empty.
  - intros (Hv & o2 & Ho2 & Hd) Hch Hnp. destruct k as [|c2 k2].
    + exfalso. apply Hnp, prefix_nil.
    + rewrite Get_walk_cons, <- Hch, Ho2.
      destruct (decide (c2 = c)) as [->|Hne].
      * rewrite lookup_singleton_eq. cbn.
        apply (IH (Clone (deref h0 o2))); [done|apply Clone_children|].
        intros Hp. apply Hnp. by apply prefix_cons.
      * by rewrite lookup_singleton_ne.
Qed.

(** Off the key path [Remove] leads to the nodes of the old trie. *)
Lemma remove_shape_walk_other strict top key old l c k :
  points_below b old →
  remove_shape strict top h0 h' b key old l →
  ¬ (c :: k) `prefix_of` key →
  Get_walk h' l (c :: k) = children_ old !! c ≫= λ o, Get_walk h0 o k.
Proof using Hclosed Hkeeps.
  revert top old l c k.
  induction key as [|c0 rest IH]; intros top old l c k Hold; cbn [remove_shape].
  - intros (Hv & Hch & _) _. apply walk_shared; [done|]. by rewrite Hch.
  - intros (Hv & o & Ho & Hcase) Hnp.
    destruct (decide (c = c0)) as [->|Hne].
    + assert (Hnp' : ¬ k `prefix_of` rest).
      { intros Hp. apply Hnp. by apply prefix_cons. }
      destruct Hcase as [(Hch & Hd & _)|(l1 & Hl1 & Hch & Hrest)].
      * rewrite Get_walk_cons, Hch, lookup_delete_eq, Ho. cbn. symmetry.
        apply (dead_walk (Clone (deref h0 o)) o rest); [done|apply Clone_children|done].
      * rewrite Get_walk_cons, Hch, lookup_insert_eq, Ho.
        destruct k as [|c2 k2]; [exfalso; apply Hnp', prefix_nil|].
        cbn [mbind option_bind].
        rewrite (IH false (Clone (deref h0 o)) l1 c2 k2); [|
          by apply points_below_Clone, Hclosed, (Hold c0)|done|done].
        by rewrite Clone_children, Get_walk_cons.
    + apply walk_shared; [done|].
      destruct Hcase as [(Hch & _)|(l1 & _ & Hch & _)]; rewrite Hch.
      * by rewrite lookup_delete_ne.
      * by rewrite lookup_insert_ne.
Qed.

End Shapes.

(** ** Structural sharing *)

(** X9.  [Put] copies the nodes on the path of the key and nothing else: a key
    that leaves the path leads, in the new trie, to the very node (the same
    address, the same object) it led to in the old one; the prefixes of
    the key lead to nodes that were not there before. *)
Theorem Put_shares_off_path t r key (value : val) h k :
  key ≠ [] → closed h → Trie_wf h t → root_ t = Some r →
  ¬ k `prefix_of` key →
  ∃ r' h', Trie_Put t key value h = Some (mkTrie (Some r'), h') ∧
    Get_walk h' r' k = Get_walk h r k ∧
    (∀ l, Get_walk h r k = Some l → h' !! l = h !! l) ∧
    (∀ p l, p `prefix_of` key → Get_walk h' r' p = Some l → length h ≤ l).
Proof.
  intros Hkey Hc Hwf Hroot Hnp.
  destruct (Trie_Put_shape t key value h Hkey Hc)
    as (h' & Hrun & Hlen & Hk & Hc' & Hs).
  { intros r0 Hr0. unfold Trie_wf in Hwf. rewrite Hr0 in Hwf. by destruct Hwf. }
  assert (Hr : r < length h).
  { unfold Trie_wf in Hwf. rewrite Hroot in Hwf. by destruct Hwf. }
  assert (Hpb : points_below (length h) (root_copy h t)).
  { unfold root_copy. rewrite Hroot. by apply points_below_Clone, Hc. }
  exists (length h), h'. split; [done|].
  destruct k as [|c k']; [exfalso; apply Hnp, prefix_nil|].
  assert (Hw : Get_walk h' (length h) (c :: k') = Get_walk h r (c :: k')).
  { rewrite (put_shape_walk_other h h' (length h) Hc Hk value key _ _ c k' Hpb Hs Hnp).
    unfold root_copy. rewrite Hroot, Clone_children. by rewrite Get_walk_cons. }
  split; [done|]. split.
  - intros l Hl. apply Hk.
    clear Hw Hnp Hroot. revert r Hr Hl. generalize (c :: k') as q.
    induction q as [|c2 q IH]; intros r Hr; cbn.
    + by intros [= <-].
    + destruct (children_ (deref h r) !! c2) as [o|] eqn:E; [|done].
      apply IH. by apply (Hc r Hr c2).
  - intros p l Hp Hl.
    by apply (put_shape_walk_path h h' (length h) value key (root_copy h t)
                (length h) p l (le_n _) Hs).
Qed.

(** X10.  [Remove] shares in the same way: off the path of the key the new trie
    leads to the nodes of the old one. *)
Theorem Remove_shares_off_path t r key h k :
  closed h → Trie_wf (val := val) h t → root_ t = Some r →
  ¬ k `prefix_of` key →
  ∃ r' h', Trie_Remove t key h = Some (mkTrie (Some r'), h') ∧
    Get_walk h' r' k = Get_walk h r k.
Proof.
  intros Hc Hwf Hroot Hnp.
  assert (Hr : r < length h ∧ value_ (deref h r) = None).
  { unfold Trie_wf in Hwf. by rewrite Hroot in Hwf. }
  destruct Hr as [Hr Hrv].
  assert (Ht : t = mkTrie (Some r)) by (destruct t; cbn in *; by subst).
  pose proof (Trie_Remove_spec false t r key h Hroot Hc Hr) as Hs.
  destruct (node_at h (deref h r) key) as [m|] eqn:Hm.
  2:{ exists r, h. rewrite <- Ht. split; [by apply Hs|done]. }
  destruct (value_ m) as [x|] eqn:Hx.
  2:{ exists r, h. rewrite <- Ht. split; [by apply Hs|done]. }
  destruct key as [|c0 rest].
  { cbn in Hm. injection Hm as <-. congruence. }
  destruct Hs as (h' & Hrun & Hlen & Hk & Hc' & Hshape); [done|].
  exists (length h), h'. split; [done|].
  destruct k as [|c k']; [exfalso; apply Hnp, prefix_nil|].
  assert (Hpb : points_below (length h) (root_copy h t)).
  { unfold root_copy. rewrite Hroot. by apply points_below_Clone, Hc. }
  rewrite (remove_shape_walk_other h h' (length h) Hc Hk false true (c0 :: rest)
             _ _ c k' Hpb Hshape Hnp).
  unfold root_copy. rewrite Hroot, Clone_children. by rewrite Get_walk_cons.
Qed.

(** ** How much is allocated *)

Lemma length_set_child p c l h : length (set_child p c l h) = length h.
Proof. unfold set_child. apply length_insert. Qed.

Lemma length_erase_child p c h : length (erase_child p c h) = length h.
Proof. unfold erase_child. apply length_insert. Qed.

Lemma Put_walk_length key cur copy h :
  length (Put_walk key cur copy h).2 = length h + length key.
Proof.
  revert cur copy h. induction key as [|c rest IH]; intros cur copy h; cbn.
  - lia.
  - destruct (children_ (deref h cur) !! c); unfold alloc;
      rewrite IH, length_set_child, length_app; cbn; lia.
Qed.

Lemma Trie_Put_length t key (value : val) h t' h' :
  Trie_Put t key value h = Some (t', h') →
  length h' = length h + length key + 2.
Proof.
  unfold Trie_Put.
  set (st := match root_ t with
             | Some r => alloc (Clone (deref h r)) h
             | None => alloc TrieNode_new h
             end).
  assert (Hst : length st.2 = length h + 1 ∧ st.1 = length h).
  { subst st. destruct (root_ t); unfold alloc; cbn; rewrite length_app; done. }
  destruct st as [new_root hA]. cbn in Hst. destruct Hst as [HlenA _].
  pose proof (Put_walk_length key new_root None hA) as Hw.
  destruct (Put_walk key new_root None hA) as [[cur copy] h1]. cbn in Hw.
  unfold alloc. destruct copy as [p|]; [|done].
  destruct (key !! (length key - 1)) as [c|]; [|done].
  intros [= _ <-]. rewrite length_set_child, length_app. cbn. lia.
Qed.

Lemma Remove_walk_length key cur path h cur' path' h' :
  Remove_walk key cur path h = Some (cur', path', h') →
  length h' = length h + length key.
Proof.
  revert cur path h. induction key as [|c rest IH]; intros cur path h; cbn.
  - intros [= _ _ <-]. lia.
  - destruct (children_ (deref h cur) !! c); [|done]. unfold alloc.
    intros Hrun. apply IH in Hrun. rewrite Hrun, length_set_child, length_app.
    cbn. lia.
Qed.

Lemma Remove_cleanup_length key (path : list loc) (n : nat) h h' :
  Remove_cleanup key path n h = Some h' → length h' = length h.
Proof.
  revert h. induction n as [|i IH]; intros h.
  - cbn. by intros [= <-].
  - rewrite Remove_cleanup_S. destruct (path !! i) as [pi|]; [|done].
    destruct (childless (deref h pi) && negb (is_value_node_ (deref h pi))).
    + destruct i as [|i'].
      * apply IH.
      * destruct (path !! i'); [|done]. destruct (key !! i'); [|done].
        intros Hrun. apply IH in Hrun. by rewrite Hrun, length_erase_child.
    + by intros [= <-].
Qed.

Lemma Trie_Remove_length t key h t' h' :
  Trie_Remove (val := val) t key h = Some (t', h') →
  length h' ≤ length h + length key + 2.
Proof.
  unfold Trie_Remove. destruct (root_ t) as [r|]; [|intros [= _ <-]; lia].
  unfold alloc.
  destruct (Remove_walk key (length h) [] (h ++ [Clone (deref h r)]))
    as [[[cur path] h1]|] eqn:Hw; [|intros [= _ <-]; lia].
  apply Remove_walk_length in Hw. rewrite length_app in Hw. cbn in Hw.
  destruct (negb (is_value_node_ (deref h1 cur))); [intros [= _ <-]; lia|].
  destruct (negb (childless (deref h1 cur))).
  - destruct (last path); [|done]. destruct (key !! (length key - 1)); [|done].
    intros [= _ <-]. rewrite length_set_child, length_app. cbn. lia.
  - destruct (last path); [|done]. destruct (key !! (length key - 1)); [|done].
    destruct (Remove_cleanup _ _ _ _) as [h2|] eqn:Hcl; [|done].
    apply Remove_cleanup_length in Hcl. intros [= _ <-].
    rewrite Hcl, length_erase_child. unfold clear_flag. rewrite length_insert. lia.
Qed.

(** X11.  [Put] appends exactly [|key| + 2] nodes to the heap, whatever the size
    of the trie, and changes none that was there: it copies a path, not
    the trie. *)
Theorem Put_allocates_the_path t key (value : val) h :
  key ≠ [] → closed h → Trie_wf h t →
  ∃ t' h' fresh, Trie_Put t key value h = Some (t', h') ∧
    h' = h ++ fresh ∧ length fresh = length key + 2.
Proof.
  intros Hkey Hc Hwf.
  destruct (Trie_Put_total t key value h Hkey Hc Hwf)
    as (h' & Hrun & Hlen & Hk & _).
  destruct (keeps_prefix h h') as [fresh ->]; [lia|done|].
  exists (mkTrie (Some (length h))), (h ++ fresh), fresh.
  split; [done|]. split; [done|].
  apply Trie_Put_length in Hrun. rewrite length_app in Hrun. lia.
Qed.

(** X12.  [Remove] appends at most [|key| + 2] nodes and changes none that was
    there. *)
Theorem Remove_allocates_the_path t key h :
  closed h → Trie_wf (val := val) h t →
  ∃ t' h' fresh, Trie_Remove t key h = Some (t', h') ∧
    h' = h ++ fresh ∧ length fresh ≤ length key + 2.
Proof.
  intros Hc Hwf.
  destruct (Trie_Remove_total false t key h Hc Hwf)
    as (t' & h' & Hrun & Hlen & Hk & _); [done|].
  destruct (keeps_prefix h h') as [fresh ->]; [lia|done|].
  exists t', (h ++ fresh), fresh. split; [done|]. split; [done|].
  apply Trie_Remove_length in Hrun. rewrite length_app in Hrun. lia.
Qed.

End Sharing.

(** * Further properties of the store *)

Section StoreMore.
Context {val ty : Type} `{!Typed ty val}.

Local Abbreviation node := (TrieNode val).
Local Abbreviation heap := (list (TrieNode val)).

Implicit Types (h : heap) (t : Trie) (s : TrieStore) (key k : list ascii).

Lemma Trie_Get_Some T t key h x :
  Trie_Get T t key h = Some x → type_of x = T ∧ Trie_value_at h t key = Some x.
Proof.
  rewrite Trie_Get_value_at. destruct (Trie_value_at h t key) as [y|]; [|done].
  cbn. case_decide; [|done]. by intros [= <-].
Qed.

Lemma Trie_Get_keeps T t key h h' :
  closed h → Trie_wf h t → keeps (length h) h h' →
  Trie_Get T t key h' = Trie_Get T t key h.
Proof.
  intros Hc Hwf Hk. apply Trie_Get_ext. unfold Trie_value_at.
  by rewrite (Trie_node_at_keeps t key h h').
Qed.

(** What a successful [Get] of the store has found. *)
Lemma TrieStore_Get_Some T key (version : Z) s h g :
  TrieStore_Get T key version s h = Some g →
  guard_root_ g ∈ snapshots_ s ∧
  Trie_Get T (guard_root_ g) key h = Some (guard_value_ g).
Proof.
  unfold TrieStore_Get.
  set (v := if decide (version = SIZE_MAX) then _ else _).
  destruct (decide (snapshots_size s ≤ v)%Z); [done|].
  destruct (snapshots_ s !! Z.to_nat v) as [trie|] eqn:Hi; [|done].
  destruct (Trie_Get T trie key h) as [x|] eqn:Hx; [|done].
  intros [= <-]. cbn. split; [|done]. by apply list_elem_of_lookup_2 in Hi.
Qed.

Lemma Trie_Get_nil_wf T t h : Trie_wf h t → Trie_Get T t [] h = None.
Proof.
  intros Hwf. rewrite Trie_Get_value_at.
  unfold Trie_value_at, Trie_node_at, Trie_wf in *.
  destruct (root_ t) as [r|]; [|done]. cbn. destruct Hwf as [_ ->]. done.
Qed.

Lemma get_version_index s :
  snapshots_ s ≠ [] → (snapshots_size s ≤ SIZE_MAX)%Z →
  get_version s = Z.of_nat (pred (length (snapshots_ s))).
Proof.
  intros Hne Hfit. unfold get_version, snapshots_size in *.
  assert (0 < length (snapshots_ s)) by (destruct (snapshots_ s); [done|cbn; lia]).
  rewrite size_t_small; lia.
Qed.

Lemma get_version_snoc s t :
  snapshots_ s ≠ [] → (snapshots_size s < SIZE_MAX)%Z →
  get_version (mkTrieStore (snapshots_ s ++ [t])) = (get_version s + 1)%Z.
Proof.
  intros Hne Hfit. rewrite (get_version_index s) by (done || lia).
  rewrite get_version_index; cbn.
  - rewrite length_app. cbn. unfold snapshots_size in Hfit.
    assert (0 < length (snapshots_ s)) by (destruct (snapshots_ s); [done|cbn; lia]).
    lia.
  - by destruct (snapshots_ s).
  - rewrite snapshots_size_snoc. lia.
Qed.

(** Reading the newest version: the trie at the end of the sequence. *)
Lemma TrieStore_Get_latest_last T key s h t :
  (snapshots_size s ≤ SIZE_MAX)%Z → last (snapshots_ s) = Some t →
  TrieStore_Get_latest T key s h
  = match Trie_Get T t key h with
    | None => None
    | Some x => Some (mkValueGuard t x)
    end.
Proof.
  intros Hfit Hlast. unfold TrieStore_Get_latest.
  by rewrite size_t_minus_one, TrieStore_Get_sentinel, Hlast.
Qed.

(** Reading the version a write has just appended. *)
Lemma TrieStore_Get_appended T key s h t :
  snapshots_ s ≠ [] → (snapshots_size s < SIZE_MAX)%Z →
  TrieStore_Get T key (get_version s + 1) (mkTrieStore (snapshots_ s ++ [t])) h
  = match Trie_Get T t key h with
    | None => None
    | Some x => Some (mkValueGuard t x)
    end.
Proof.
  intros Hne Hfit.
  assert (0 < length (snapshots_ s)) by (destruct (snapshots_ s); [done|cbn; lia]).
  apply (TrieStore_Get_index T key _ _ h (length (snapshots_ s))).
  - rewrite get_version_index by (done || lia). lia.
  - rewrite get_version_index by (done || lia). unfold snapshots_size in Hfit. lia.
  - cbn. apply list_lookup_middle. done.
Qed.

(** ** The guard *)

(** X13.  The guard a [Get] of the store answers with holds a value of the type
    asked for, and keeps it readable: whatever is written to the store
    later, the trie held by the guard still leads to that value under the
    key. *)
Theorem ValueGuard_stays_valid (T : ty) key (version : Z) s h s' h'
    (g : ValueGuard val) :
  reachable s h → later_state s h s' h' →
  TrieStore_Get T key version s h = Some g →
  type_of (guard_value_ g) = T ∧
  Trie_Get T (guard_root_ g) key h' = Some (guard_value_ g).
Proof.
  intros Hr Hl Hg. pose proof (reachable_wf s h Hr) as Hwf.
  destruct (later_state_wf s h s' h' Hwf Hl) as (_ & _ & Hk & _).
  destruct (TrieStore_Get_Some T key version s h g Hg) as [Hin Hget].
  destruct Hwf as (Hc & _ & Hwf).
  split; [by apply (Trie_Get_Some T (guard_root_ g) key h)|].
  rewrite (Trie_Get_keeps T (guard_root_ g) key h h'); auto.
Qed.

(** ** Reading after writing *)

(** X14.  [Put] of the store, for a key that is not empty: the number it
    answers with is one more than the newest version before, it is the
    newest version now, and reading it (by number, or as the newest)
    gives the value for the type of the value and nothing for another
    type; every other key reads there as in the newest version before. *)
Theorem Store_Put_then_Get (T : ty) key (value : val) s h :
  key ≠ [] → reachable s h → (snapshots_size s < SIZE_MAX)%Z →
  ∃ v s' h', TrieStore_Put key value s h = Some (v, s', h') ∧
    v = (get_version s + 1)%Z ∧ get_version s' = v ∧
    guard_value_ <$> TrieStore_Get T key v s' h'
      = (if decide (type_of value = T) then Some value else None) ∧
    TrieStore_Get_latest T key s' h' = TrieStore_Get T key v s' h' ∧
    ∀ (T' : ty) k, k ≠ key →
      guard_value_ <$> TrieStore_Get T' k v s' h'
      = guard_value_ <$> TrieStore_Get_latest T' k s h.
Proof.
  intros Hkey Hr Hfit. pose proof (reachable_wf s h Hr) as Hwf.
  destruct (TrieStore_Put_total key value s h Hkey Hwf)
    as (t & h' & Hlast & Hput & Hrun & _).
  cbn zeta in Hrun.
  pose proof Hwf as (Hc & Hne & Hwfs).
  assert (Hwft : Trie_wf h t) by (by apply Hwfs, last_Some_elem_of).
  destruct (Trie_Put_total t key value h Hkey Hc Hwft)
    as (h2 & Hput2 & _ & _ & _ & _ & Hval & _).
  rewrite Hput in Hput2. injection Hput2 as <-.
  set (t' := mkTrie (Some (length h))) in *.
  set (s' := mkTrieStore (snapshots_ s ++ [t'])) in *.
  assert (Hv : get_version s' = (get_version s + 1)%Z) by (by apply get_version_snoc).
  assert (Hread : ∀ (T' : ty) k, TrieStore_Get T' k (get_version s + 1) s' h'
            = match Trie_Get T' t' k h' with
              | None => None
              | Some x => Some (mkValueGuard t' x)
              end) by (intros; by apply TrieStore_Get_appended).
  exists (get_version s + 1)%Z, s', h'.
  split; [by rewrite <- Hv|]. split; [done|]. split; [done|]. split; [|split].
  - rewrite Hread, Trie_Get_value_at, Hval, decide_True by done. cbn.
    by case_decide.
  - rewrite Hread. apply TrieStore_Get_latest_last.
    + subst s'. rewrite snapshots_size_snoc. lia.
    + subst s'. cbn. apply last_snoc.
  - intros T' k Hk. rewrite Hread.
    rewrite (TrieStore_Get_latest_last T' k s h t) by (lia || done).
    rewrite (Trie_Get_ext T' t t' k h h').
    + by destruct (Trie_Get T' t k h).
    + rewrite Hval. by rewrite decide_False.
Qed.

(** X15.  [Remove] of the store, for a key the newest version holds: a version
    is appended in which the key misses at every type and every other key
    reads as before, while the version that was the newest still answers
    with the value. *)
Theorem Store_Remove_then_Get (T : ty) key s h (g : ValueGuard val) :
  reachable s h → (snapshots_size s < SIZE_MAX)%Z →
  TrieStore_Get_latest T key s h = Some g →
  ∃ v s' h', TrieStore_Remove key s h = Some (v, s', h') ∧
    v = (get_version s + 1)%Z ∧ get_version s' = v ∧
    (∀ T' : ty, TrieStore_Get T' key v s' h' = None ∧
                TrieStore_Get_latest T' key s' h' = None) ∧
    TrieStore_Get T key (get_version s) s' h' = Some g ∧
    ∀ (T' : ty) k, k ≠ key →
      guard_value_ <$> TrieStore_Get T' k v s' h'
      = guard_value_ <$> TrieStore_Get_latest T' k s h.
Proof.
  intros Hr Hfit Hg. pose proof (reachable_wf s h Hr) as Hwf.
  destruct (Store_wf_last s h Hwf) as (t & Hlast & Hwft).
  pose proof Hwf as (Hc & Hne & Hwfs).
  assert (Hpos : 0 < length (snapshots_ s))
    by (destruct (snapshots_ s); [done|cbn; lia]).
  rewrite (TrieStore_Get_latest_last T key s h t) in Hg by (lia || done).
  destruct (Trie_Get T t key h) as [x|] eqn:Hx; [|done]. injection Hg as <-.
  destruct (Trie_Get_Some T t key h x Hx) as [_ Hstored].
  destruct (Trie_Remove_total false t key h Hc Hwft)
    as (t' & h' & Hrun & Hlen & Hk & _ & _ & _ & Hnew & _ & Hval & _); [done|].
  destruct Hnew as [-> _]; [by rewrite Hstored|].
  set (t' := mkTrie (Some (length h))) in *.
  set (s' := mkTrieStore (snapshots_ s ++ [t'])).
  assert (Hv : get_version s' = (get_version s + 1)%Z) by (by apply get_version_snoc).
  assert (Hread : ∀ (T' : ty) k, TrieStore_Get T' k (get_version s + 1) s' h'
            = match Trie_Get T' t' k h' with
              | None => None
              | Some x => Some (mkValueGuard t' x)
              end) by (intros; by apply TrieStore_Get_appended).
  assert (Hmiss : ∀ T' : ty, Trie_Get T' t' key h' = None).
  { intros T'. rewrite Trie_Get_value_at, Hval. by rewrite decide_True. }
  exists (get_version s + 1)%Z, s', h'. split; [|split; [done|split; [done|]]].
  { pose proof (fresh_root_differs h t Hwft) as Hneq. fold t' in Hneq.
    unfold TrieStore_Remove. rewrite Hlast, Hrun, Hneq. by rewrite <- Hv. }
  split; [|split].
  - intros T'. split.
    + by rewrite Hread, Hmiss.
    + rewrite (TrieStore_Get_latest_last T' key s' h' t').
      * by rewrite Hmiss.
      * subst s'. rewrite snapshots_size_snoc. lia.
      * subst s'. cbn. apply last_snoc.
  - rewrite (TrieStore_Get_index T key _ s' h' (pred (length (snapshots_ s))) t).
    + rewrite (Trie_Get_keeps T t key h h'), Hx; done.
    + apply get_version_index; [done|lia].
    + rewrite get_version_index by (done || lia). unfold snapshots_size in Hfit. lia.
    + subst s'. cbn. rewrite lookup_app_l by lia. by rewrite <- last_lookup.
  - intros T' k Hne'. rewrite Hread.
    rewrite (TrieStore_Get_latest_last T' k s h t) by (lia || done).
    rewrite (Trie_Get_ext T' t t' k h h').
    + by destruct (Trie_Get T' t k h).
    + rewrite Hval. by rewrite decide_False.
Qed.

(** ** Version numbers *)

(** X16.  Every write answers with the number of the newest version after it.
    Either the write has appended one version, and the number is one more
    than before; or the store and the heap are as they were, the number
    is the one before, and the write was a [Remove]. *)
Theorem store_versions_count_writes (op : store_op (val := val)) s h (v : Z) s' h' :
  reachable s h → (snapshots_size s < SIZE_MAX)%Z →
  store_apply op s h = Some (v, s', h') →
  v = get_version s' ∧
  ((s' = s ∧ h' = h ∧ ∃ key, op = OpRemove key) ∨
   (∃ t', snapshots_ s' = snapshots_ s ++ [t'] ∧ v = (get_version s + 1)%Z)).
Proof.
  intros Hr Hfit Hrun. pose proof (reachable_wf s h Hr) as Hwf.
  pose proof Hwf as (Hc & Hne & Hwfs).
  destruct op as [key value|key]; cbn [store_apply] in Hrun.
  - destruct key as [|c rest].
    { unfold TrieStore_Put in Hrun. destruct (last (snapshots_ s)); [|done].
      by rewrite Trie_Put_nil in Hrun. }
    destruct (TrieStore_Put_total (c :: rest) value s h) as (t & h2 & _ & _ & Hrun2 & _);
      [done|done|].
    cbn zeta in Hrun2. rewrite Hrun2 in Hrun. injection Hrun as <- <- <-.
    split; [done|]. right. eexists. split; [done|]. by apply get_version_snoc.
  - destruct (Store_wf_last s h Hwf) as (t & Hlast & Hwft).
    unfold TrieStore_Remove in Hrun. rewrite Hlast in Hrun.
    destruct (Trie_Remove_total false t key h Hc Hwft)
      as (t2 & h2 & Hrun2 & _ & _ & _ & _ & Hnoop & Hnew & _); [done|].
    rewrite Hrun2 in Hrun.
    destruct (Trie_value_at h t key) as [x|] eqn:Hx.
    + destruct Hnew as [-> _]; [done|].
      rewrite (fresh_root_differs h t Hwft) in Hrun. injection Hrun as <- <- <-.
      split; [done|]. right. eexists. split; [done|]. by apply get_version_snoc.
    + destruct Hnoop as [-> ->]; [done|]. rewrite Trie_eqb_refl in Hrun.
      injection Hrun as <- <- <-. split; [done|]. left. eauto.
Qed.

(** ** The empty key *)

(** X17.  No version of a store holds the empty key: [Get] of it misses for
    every type and every version number, and [Remove] of it leaves the
    store as it is. *)
Theorem empty_key_never_stored (T : ty) (version : Z) s h :
  reachable s h →
  TrieStore_Get T [] version s h = None ∧
  TrieStore_Remove [] s h = Some (get_version s, s, h).
Proof.
  intros Hr. pose proof (reachable_wf s h Hr) as Hwf.
  pose proof Hwf as (Hc & Hne & Hwfs). split.
  - destruct (TrieStore_Get T [] version s h) as [g|] eqn:Hg; [|done].
    destruct (TrieStore_Get_Some T [] version s h g Hg) as [Hin Hget].
    rewrite (Trie_Get_nil_wf T _ h (Hwfs _ Hin)) in Hget. done.
  - destruct (Store_wf_last s h Hwf) as (t & Hlast & Hwft).
    unfold TrieStore_Remove. rewrite Hlast.
    rewrite (Trie_Remove_noop t [] h); [by rewrite Trie_eqb_refl|done| |].
    + intros r Hroot. unfold Trie_wf in Hwft. rewrite Hroot in Hwft. by destruct Hwft.
    + unfold Trie_value_at, Trie_node_at, Trie_wf in *.
      destruct (root_ t) as [r|]; [|done]. cbn. by destruct Hwft.
Qed.

End StoreMore.

(** * The further properties on concrete stores *)

Lemma world_ab_pruned : Trie_pruned world_ab.2 (latest world_ab).
Proof.
  apply Trie_pruned_all_pruned.
  apply (Trie_Put_pruned_all (latest world_a) (key_of "ab") (V_int 200) world_a.2).
  - done.
  - exact world_a_closed.
  - exact world_a_wf.
  - apply Trie_pruned_all_pruned, world_a_pruned_all.
  - vm_compute. reflexivity.
Qed.

Lemma world_ab_wf_old : Trie_wf world_ab.2 (latest world_a).
Proof. vm_compute. split; [lia|reflexivity]. Qed.

(** [Put("a", "x")] on the trie holding the integer 100 under "a", read
    back as an integer. *)
Lemma Put_then_Get_by_type_witness :
  key_of "a" ≠ [] ∧ closed world_a.2 ∧ Trie_wf world_a.2 (latest world_a) ∧
  ∃ t' h', Trie_Put (latest world_a) (key_of "a") (V_string "x") world_a.2
           = Some (t', h') ∧
    Trie_Get T_int t' (key_of "a") h'
    = (if decide (type_of (V_string "x") = T_int) then Some (V_string "x") else None) ∧
    ∀ (T' : sample_ty) k, k ≠ key_of "a" →
      Trie_Get T' t' k h' = Trie_Get T' (latest world_a) k world_a.2.
Proof.
  assert (Hk : key_of "a" ≠ []) by done.
  split; [exact Hk|]. split; [exact world_a_closed|]. split; [exact world_a_wf|].
  exact (Put_then_Get_by_type T_int _ _ (V_string "x") _ Hk world_a_closed world_a_wf).
Defined.

(** Two [Put]s of "a" on the trie holding "a". *)
Lemma Put_Put_last_wins_witness :
  key_of "a" ≠ [] ∧ closed world_a.2 ∧ Trie_wf world_a.2 (latest world_a) ∧
  ∃ t1 h1 t2 h2 t3 h3,
    Trie_Put (latest world_a) (key_of "a") (V_int 1) world_a.2 = Some (t1, h1) ∧
    Trie_Put t1 (key_of "a") (V_string "x") h1 = Some (t2, h2) ∧
    Trie_Put (latest world_a) (key_of "a") (V_string "x") world_a.2 = Some (t3, h3) ∧
    ∀ (T : sample_ty) k, Trie_Get T t2 k h2 = Trie_Get T t3 k h3.
Proof.
  assert (Hk : key_of "a" ≠ []) by done.
  split; [exact Hk|]. split; [exact world_a_closed|]. split; [exact world_a_wf|].
  exact (Put_Put_last_wins (ty := sample_ty) _ _ (V_int 1) (V_string "x") _
           Hk world_a_closed world_a_wf).
Defined.

(** [Put("ab", 1)] and [Put("b", 2)] on the trie holding "a", in both
    orders. *)
Lemma Put_Put_commute_witness :
  key_of "ab" ≠ [] ∧ key_of "b" ≠ [] ∧ key_of "ab" ≠ key_of "b" ∧
  closed world_a.2 ∧ Trie_wf world_a.2 (latest world_a) ∧
  ∃ ta ha tab hab tb hb tba hba,
    Trie_Put (latest world_a) (key_of "ab") (V_int 1) world_a.2 = Some (ta, ha) ∧
    Trie_Put ta (key_of "b") (V_int 2) ha = Some (tab, hab) ∧
    Trie_Put (latest world_a) (key_of "b") (V_int 2) world_a.2 = Some (tb, hb) ∧
    Trie_Put tb (key_of "ab") (V_int 1) hb = Some (tba, hba) ∧
    ∀ (T : sample_ty) k, Trie_Get T tab k hab = Trie_Get T tba k hba.
Proof.
  assert (Hk1 : key_of "ab" ≠ []) by done.
  assert (Hk2 : key_of "b" ≠ []) by done.
  assert (Hne : key_of "ab" ≠ key_of "b") by done.
  split; [exact Hk1|]. split; [exact Hk2|]. split; [exact Hne|].
  split; [exact world_a_closed|]. split; [exact world_a_wf|].
  exact (Put_Put_commute (ty := sample_ty) _ _ _ (V_int 1) (V_int 2) _
           Hk1 Hk2 Hne world_a_closed world_a_wf).
Defined.

(** [Put("ab", 200)] and [Remove("ab")] on the trie holding "a". *)
Lemma Put_then_Remove_witness :
  key_of "ab" ≠ [] ∧ closed world_a.2 ∧ Trie_wf world_a.2 (latest world_a) ∧
  ∃ t1 h1 t2 h2,
    Trie_Put (latest world_a) (key_of "ab") (V_int 200) world_a.2 = Some (t1, h1) ∧
    Trie_Remove t1 (key_of "ab") h1 = Some (t2, h2) ∧
    ∀ (T : sample_ty) k,
      Trie_Get T t2 k h2
      = if decide (k = key_of "ab") then None else Trie_Get T (latest world_a) k world_a.2.
Proof.
  assert (Hk : key_of "ab" ≠ []) by done.
  split; [exact Hk|]. split; [exact world_a_closed|]. split; [exact world_a_wf|].
  exact (Put_then_Remove (ty := sample_ty) _ _ (V_int 200) _
           Hk world_a_closed world_a_wf).
Defined.

(** [Remove("a")] twice on the trie holding "a" and "ab". *)
Lemma Remove_twice_witness :
  closed world_ab.2 ∧ Trie_wf world_ab.2 (latest world_ab) ∧
  ∃ t1 h1, Trie_Remove (latest world_ab) (key_of "a") world_ab.2 = Some (t1, h1) ∧
           Trie_Remove t1 (key_of "a") h1 = Some (t1, h1).
Proof.
  split; [exact world_ab_closed|]. split; [exact world_ab_wf|].
  exact (Remove_twice _ (key_of "a") _ world_ab_closed world_ab_wf).
Defined.


(** The older trie holding "a", read after [Put("b", 7)] and after
    [Remove("a")] on the trie holding "a" and "ab". *)
Lemma operations_leave_old_tries_witness :
  key_of "b" ≠ [] ∧ closed world_ab.2 ∧ Trie_wf world_ab.2 (latest world_ab) ∧
  Trie_wf world_ab.2 (latest world_a) ∧
  (∃ t' h', Trie_Put (latest world_ab) (key_of "b") (V_int 7) world_ab.2
            = Some (t', h') ∧
            ∀ (T : sample_ty) k,
              Trie_Get T (latest world_a) k h' = Trie_Get T (latest world_a) k world_ab.2) ∧
  (∃ t' h', Trie_Remove (latest world_ab) (key_of "a") world_ab.2 = Some (t', h') ∧
            ∀ (T : sample_ty) k,
              Trie_Get T (latest world_a) k h' = Trie_Get T (latest world_a) k world_ab.2).
Proof.
  assert (Hk : key_of "b" ≠ []) by done.
  split; [exact Hk|]. split; [exact world_ab_closed|]. split; [exact world_ab_wf|].
  split; [exact world_ab_wf_old|].
  exact (operations_leave_old_tries (ty := sample_ty) _ _ _ (V_int 7) (key_of "a") _
           Hk world_ab_closed world_ab_wf world_ab_wf_old).
Defined.

(** [Remove("a")] on the trie holding "a" and "ab": "ab" is still stored. *)
Lemma Remove_leaves_live_root_witness :
  closed world_ab.2 ∧ Trie_wf world_ab.2 (latest world_ab) ∧
  Trie_pruned world_ab.2 (latest world_ab) ∧
  (Z.of_nat (length (key_of "a")) ≤ 2 ^ 31)%Z ∧
  Trie_Remove (latest world_ab) (key_of "a") world_ab.2
  = Some (latest world_ab_minus_a, world_ab_minus_a.2) ∧
  Trie_value_at world_ab_minus_a.2 (latest world_ab_minus_a) (key_of "ab")
  = Some (V_int 200) ∧
  Trie_pruned_all world_ab_minus_a.2 (latest world_ab_minus_a).
Proof.
  assert (Hl : (Z.of_nat (length (key_of "a")) ≤ 2 ^ 31)%Z) by (cbn; lia).
  assert (Hrun : Trie_Remove (latest world_ab) (key_of "a") world_ab.2
                 = Some (latest world_ab_minus_a, world_ab_minus_a.2))
    by (vm_compute; reflexivity).
  assert (Hx : Trie_value_at world_ab_minus_a.2 (latest world_ab_minus_a) (key_of "ab")
               = Some (V_int 200)) by (vm_compute; reflexivity).
  split; [exact world_ab_closed|]. split; [exact world_ab_wf|].
  split; [exact world_ab_pruned|]. split; [exact Hl|]. split; [exact Hrun|].
  split; [exact Hx|].
  exact (Remove_leaves_live_root _ _ _ _ _ _ _
           world_ab_closed world_ab_wf world_ab_pruned Hl Hrun Hx).
Defined.

(** [Put("b", 7)] on the trie holding "a" and "ab" (root at address 3): the
    key "ab" leaves the path of "b". *)
Lemma Put_shares_off_path_witness :
  key_of "b" ≠ [] ∧ closed world_ab.2 ∧ Trie_wf world_ab.2 (latest world_ab) ∧
  root_ (latest world_ab) = Some 3 ∧ ¬ key_of "ab" `prefix_of` key_of "b" ∧
  ∃ r' h', Trie_Put (latest world_ab) (key_of "b") (V_int 7) world_ab.2
           = Some (mkTrie (Some r'), h') ∧
    Get_walk h' r' (key_of "ab") = Get_walk world_ab.2 3 (key_of "ab") ∧
    (∀ l, Get_walk world_ab.2 3 (key_of "ab") = Some l → h' !! l = world_ab.2 !! l) ∧
    (∀ p l, p `prefix_of` key_of "b" → Get_walk h' r' p = Some l →
            length world_ab.2 ≤ l).
Proof.
  assert (Hk : key_of "b" ≠ []) by done.
  assert (Hr : root_ (latest world_ab) = Some 3) by (vm_compute; reflexivity).
  assert (Hnp : ¬ key_of "ab" `prefix_of` key_of "b")
    by (intros [x Hx]; discriminate Hx).
  split; [exact Hk|]. split; [exact world_ab_closed|]. split; [exact world_ab_wf|].
  split; [exact Hr|]. split; [exact Hnp|].
  exact (Put_shares_off_path _ 3 _ (V_int 7) _ _
           Hk world_ab_closed world_ab_wf Hr Hnp).
Defined.

(** [Remove("a")] on the trie holding "a" and "ab": the key "ab" leaves the
    path of "a" after its end. *)
Lemma Remove_shares_off_path_witness :
  closed world_ab.2 ∧ Trie_wf world_ab.2 (latest world_ab) ∧
  root_ (latest world_ab) = Some 3 ∧ ¬ key_of "ab" `prefix_of` key_of "a" ∧
  ∃ r' h', Trie_Remove (latest world_ab) (key_of "a") world_ab.2
           = Some (mkTrie (Some r'), h') ∧
    Get_walk h' r' (key_of "ab") = Get_walk world_ab.2 3 (key_of "ab").
Proof.
  assert (Hr : root_ (latest world_ab) = Some 3) by (vm_compute; reflexivity).
  assert (Hnp : ¬ key_of "ab" `prefix_of` key_of "a")
    by (intros [x Hx]; discriminate Hx).
  split; [exact world_ab_closed|]. split; [exact world_ab_wf|].
  split; [exact Hr|]. split; [exact Hnp|].
  exact (Remove_shares_off_path _ 3 _ _ _ world_ab_closed world_ab_wf Hr Hnp).
Defined.

(** [Put("ab", 200)] on the trie holding "a": four nodes. *)
Lemma Put_allocates_the_path_witness :
  key_of "ab" ≠ [] ∧ closed world_a.2 ∧ Trie_wf world_a.2 (latest world_a) ∧
  ∃ t' h' fresh,
    Trie_Put (latest world_a) (key_of "ab") (V_int 200) world_a.2 = Some (t', h') ∧
    h' = world_a.2 ++ fresh ∧ length fresh = length (key_of "ab") + 2.
Proof.
  assert (Hk : key_of "ab" ≠ []) by done.
  split; [exact Hk|]. split; [exact world_a_closed|]. split; [exact world_a_wf|].
  exact (Put_allocates_the_path _ _ (V_int 200) _ Hk world_a_closed world_a_wf).
Defined.

(** [Remove("a")] on the trie holding "a" and "ab". *)
Lemma Remove_allocates_the_path_witness :
  closed world_ab.2 ∧ Trie_wf world_ab.2 (latest world_ab) ∧
  ∃ t' h' fresh,
    Trie_Remove (latest world_ab) (key_of "a") world_ab.2 = Some (t', h') ∧
    h' = world_ab.2 ++ fresh ∧ length fresh ≤ length (key_of "a") + 2.
Proof.
  split; [exact world_ab_closed|]. split; [exact world_ab_wf|].
  exact (Remove_allocates_the_path _ (key_of "a") _ world_ab_closed world_ab_wf).
Defined.

(** The guard for "a" read at version 1, after [Put("ab", 200)] and
    [Remove("a")]. *)
Lemma ValueGuard_stays_valid_witness :
  reachable world_a.1 world_a.2 ∧
  later_state world_a.1 world_a.2 world_ab_minus_a.1 world_ab_minus_a.2 ∧
  TrieStore_Get T_int (key_of "a") 1 world_a.1 world_a.2
  = Some (mkValueGuard (latest world_a) (V_int 100)) ∧
  type_of (guard_value_ (mkValueGuard (latest world_a) (V_int 100))) = T_int ∧
  Trie_Get T_int (guard_root_ (mkValueGuard (latest world_a) (V_int 100)))
    (key_of "a") world_ab_minus_a.2
  = Some (guard_value_ (mkValueGuard (latest world_a) (V_int 100))).
Proof.
  assert (Hg : TrieStore_Get T_int (key_of "a") 1 world_a.1 world_a.2
               = Some (mkValueGuard (latest world_a) (V_int 100)))
    by (vm_compute; reflexivity).
  split; [exact world_a_reachable|]. split; [exact world_a_later|]. split; [exact Hg|].
  exact (ValueGuard_stays_valid T_int (key_of "a") 1 _ _ _ _ _
           world_a_reachable world_a_later Hg).
Defined.

(** [Put("ab", 200)] on the store holding "a". *)
Lemma Store_Put_then_Get_witness :
  key_of "ab" ≠ [] ∧ reachable world_a.1 world_a.2 ∧
  (snapshots_size world_a.1 < SIZE_MAX)%Z ∧
  ∃ v s' h', TrieStore_Put (key_of "ab") (V_int 200) world_a.1 world_a.2
             = Some (v, s', h') ∧
    v = (get_version world_a.1 + 1)%Z ∧ get_version s' = v ∧
    guard_value_ <$> TrieStore_Get T_int (key_of "ab") v s' h'
      = (if decide (type_of (V_int 200) = T_int) then Some (V_int 200) else None) ∧
    TrieStore_Get_latest T_int (key_of "ab") s' h'
      = TrieStore_Get T_int (key_of "ab") v s' h' ∧
    ∀ (T' : sample_ty) k, k ≠ key_of "ab" →
      guard_value_ <$> TrieStore_Get T' k v s' h'
      = guard_value_ <$> TrieStore_Get_latest T' k world_a.1 world_a.2.
Proof.
  assert (Hk : key_of "ab" ≠ []) by done.
  assert (Hf : (snapshots_size world_a.1 < SIZE_MAX)%Z) by (vm_compute; done).
  split; [exact Hk|]. split; [exact world_a_reachable|]. split; [exact Hf|].
  exact (Store_Put_then_Get T_int _ (V_int 200) _ _ Hk world_a_reachable Hf).
Defined.

(** [Remove("a")] on the store holding "a". *)
Lemma Store_Remove_then_Get_witness :
  reachable world_a.1 world_a.2 ∧ (snapshots_size world_a.1 < SIZE_MAX)%Z ∧
  TrieStore_Get_latest T_int (key_of "a") world_a.1 world_a.2
  = Some (mkValueGuard (latest world_a) (V_int 100)) ∧
  ∃ v s' h', TrieStore_Remove (key_of "a") world_a.1 world_a.2 = Some (v, s', h') ∧
    v = (get_version world_a.1 + 1)%Z ∧ get_version s' = v ∧
    (∀ T' : sample_ty, TrieStore_Get T' (key_of "a") v s' h' = None ∧
                       TrieStore_Get_latest T' (key_of "a") s' h' = None) ∧
    TrieStore_Get T_int (key_of "a") (get_version world_a.1) s' h'
    = Some (mkValueGuard (latest world_a) (V_int 100)) ∧
    ∀ (T' : sample_ty) k, k ≠ key_of "a" →
      guard_value_ <$> TrieStore_Get T' k v s' h'
      = guard_value_ <$> TrieStore_Get_latest T' k world_a.1 world_a.2.
Proof.
  assert (Hf : (snapshots_size world_a.1 < SIZE_MAX)%Z) by (vm_compute; done).
  assert (Hg : TrieStore_Get_latest T_int (key_of "a") world_a.1 world_a.2
               = Some (mkValueGuard (latest world_a) (V_int 100)))
    by (vm_compute; reflexivity).
  split; [exact world_a_reachable|]. split; [exact Hf|]. split; [exact Hg|].
  exact (Store_Remove_then_Get T_int _ _ _ _ world_a_reachable Hf Hg).
Defined.

(** [Remove("a")] on the store holding "a" answers 2. *)
Lemma store_versions_count_writes_witness :
  reachable world_a.1 world_a.2 ∧ (snapshots_size world_a.1 < SIZE_MAX)%Z ∧
  store_apply (OpRemove (key_of "a")) world_a.1 world_a.2
  = Some (2%Z, world_a_minus_a.1, world_a_minus_a.2) ∧
  2%Z = get_version world_a_minus_a.1 ∧
  ((world_a_minus_a.1 = world_a.1 ∧ world_a_minus_a.2 = world_a.2 ∧
    ∃ key, OpRemove (val := sample_val) (key_of "a") = OpRemove key) ∨
   (∃ t', snapshots_ world_a_minus_a.1 = snapshots_ world_a.1 ++ [t'] ∧
          2%Z = (get_version world_a.1 + 1)%Z)).
Proof.
  assert (Hf : (snapshots_size world_a.1 < SIZE_MAX)%Z) by (vm_compute; done).
  assert (Hrun : store_apply (OpRemove (key_of "a")) world_a.1 world_a.2
                 = Some (2%Z, world_a_minus_a.1, world_a_minus_a.2))
    by (vm_compute; reflexivity).
  split; [exact world_a_reachable|]. split; [exact Hf|]. split; [exact Hrun|].
  exact (store_versions_count_writes _ _ _ _ _ _ world_a_reachable Hf Hrun).
Defined.

(** The empty key on the store holding "a". *)
Lemma empty_key_never_stored_witness :
  reachable world_a.1 world_a.2 ∧
  TrieStore_Get T_int [] 1 world_a.1 world_a.2 = None ∧
  TrieStore_Remove [] world_a.1 world_a.2
  = Some (get_version world_a.1, world_a.1, world_a.2).
Proof.
  split; [exact world_a_reachable|].
  exact (empty_key_never_stored T_int 1 _ _ world_a_reachable).
Defined.
